(** * Chunk allocation and utility functions of [cave.c]

    A shallow embedding of the object-list manager ([list_object],
    [delist_object]), of chunk creation ([cave_new]), of the placement
    routine [scatter], of the adjacency scan [count_feats] and of the
    keypad direction tables, together with the properties claimed for
    them.

    Memory is explicit: chunks and objects live in two stores keyed by
    address, the globals [cave], [player] and [turn] are fields of the
    [world], and every function threads the world through.  The headers
    that declare [struct chunk], [struct object] and the macros
    [OBJECT_LIST_SIZE], [OBJECT_LIST_INCR] and [SQUARE_SIZE] are not part
    of the sources at hand: integer fields are therefore mathematical
    integers, and the macros are parameters of the development.  The
    [int] locals count slots of the index, nine directions or 1,000,000
    tries, far from the limits of [int].  Allocation does not fail (in
    the source a failed allocation ends the process). *)

From stdpp Require Import gmap list strings.

Local Open Scope Z_scope.

(** ** Outcomes of a C call *)

(** A call returns normally, stops the process on a failed [assert], or
    has no defined behaviour (a null or dangling pointer is followed, an
    array is accessed outside its allocation). *)
Inductive result (A : Type) : Type :=
  | Ok (a : A)
  | Abort
  | Undefined.
Arguments Ok {A} a.
Arguments Abort {A}.
Arguments Undefined {A}.

#[global] Instance result_ret : MRet result := λ A a, Ok a.
#[global] Instance result_bind : MBind result := λ A B f m,
  match m with
  | Ok a => f a
  | Abort => Abort
  | Undefined => Undefined
  end.

(** ** Memory *)

Abbreviation addr := positive.

(** [*p] for a pointer into a store. *)
Definition deref {A : Type} (h : gmap addr A) (p : addr) : result A :=
  match h !! p with
  | Some a => Ok a
  | None => Undefined
  end.

(** [a[i]] as an rvalue. *)
Definition array_get {A : Type} (a : list A) (i : Z) : result A :=
  if decide (0 ≤ i) then
    match a !! Z.to_nat i with
    | Some x => Ok x
    | None => Undefined
    end
  else Undefined.

(** [a[i] = x]. *)
Definition array_set {A : Type} (a : list A) (i : Z) (x : A) : result (list A) :=
  if decide (0 ≤ i ∧ (Z.to_nat i < length a)%nat) then Ok (<[Z.to_nat i := x]> a)
  else Undefined.

(** [for (i = from; ...; i++) a[i] = NULL], [n] iterations. *)
Fixpoint null_range {A : Type} (n : nat) (from : Z) (a : list (option A))
  : result (list (option A)) :=
  match n with
  | O => Ok a
  | S n' => a' ← array_set a from None; null_range n' (from + 1) a'
  end.

(** ** Data model *)

(** [struct object]: only the list index is touched by this file. *)
Record object := Object { oidx : Z }.

(** [struct square], with the fields [cave_new] and [cave_free] use. *)
Record square := Square {
  sq_info : list Z;
  sq_trap : option addr;
  sq_obj : option addr
}.

(** [struct chunk].  [objects] holds the allocated slots of the object
    index, [None] being the null pointer; [monsters] is the number of
    (zeroed) monster records allocated. *)
Record chunk := Chunk {
  name : option addr;
  created_at : Z;
  height : Z;
  width : Z;
  feat_count : list Z;
  squares : list (list square);
  objects : list (option addr);
  obj_max : Z;
  monsters : Z;
  mon_max : Z;
  mon_cnt : Z;
  mon_current : Z
}.

(** The process state: both stores, the globals [cave] and [turn], the
    fields of [player] and of [z_info] that are read here. *)
Record world := World {
  chunks : gmap addr chunk;
  objs : gmap addr object;
  cave : option addr;
  player_cave : option addr;
  player_py : Z;
  player_px : Z;
  turn : Z;
  f_max : Z;
  level_monster_max : Z
}.

Definition set_objects (ch : chunk) (a : list (option addr)) : chunk :=
  Chunk (name ch) (created_at ch) (height ch) (width ch) (feat_count ch)
        (squares ch) a (obj_max ch) (monsters ch) (mon_max ch) (mon_cnt ch)
        (mon_current ch).

Definition set_obj_max (ch : chunk) (m : Z) : chunk :=
  Chunk (name ch) (created_at ch) (height ch) (width ch) (feat_count ch)
        (squares ch) (objects ch) m (monsters ch) (mon_max ch) (mon_cnt ch)
        (mon_current ch).

(** [*c = ch]. *)
Definition store_chunk (w : world) (c : addr) (ch : chunk) : world :=
  World (<[c := ch]> (chunks w)) (objs w) (cave w) (player_cave w)
        (player_py w) (player_px w) (turn w) (f_max w) (level_monster_max w).

(** [obj->oidx = i]. *)
Definition store_oidx (w : world) (o : addr) (i : Z) : result world :=
  _ ← deref (objs w) o;
  Ok (World (chunks w) (<[o := Object i]> (objs w)) (cave w) (player_cave w)
            (player_py w) (player_px w) (turn w) (f_max w)
            (level_monster_max w)).

(** ** Parameters *)

(** The macros of the missing headers, and what a slot of memory that
    [mem_realloc] adds holds before it is written. *)
Class Layout := {
  OBJECT_LIST_SIZE : Z;
  OBJECT_LIST_INCR : Z;
  SQUARE_SIZE : Z;
  junk : nat → option addr
}.

(** The collaborators of the geometry routines, which receive the chunk
    pointer they are called with: the random number generator behind
    [rand_spread], the grid predicates, [distance] and [los]. *)
Class Oracles := {
  rng : Type;
  rand_spread : rng → Z → Z → Z * rng;
  square_in_bounds_fully : world → option addr → Z → Z → bool;
  square_isknown : world → option addr → Z → Z → bool;
  distance : Z → Z → Z → Z → Z;
  los : world → option addr → Z → Z → Z → Z → bool
}.

(** ** Direction tables *)

Definition ddd : list Z := [2; 8; 6; 4; 3; 1; 9; 7; 5].

Definition ddx : list Z := [0; -1; 0; 1; -1; 0; 1; -1; 0; 1].

Definition ddy : list Z := [0; 1; 1; 1; 0; 0; 0; -1; -1; -1].

Definition ddx_ddd : list Z := [0; 0; 1; -1; 1; -1; 1; -1; 0].

Definition ddy_ddd : list Z := [1; -1; 0; 0; 1; 1; -1; -1; 0].

Section Model.
Context `{!Layout}.

(** ** Allocation *)

(** [mem_zalloc(n * sizeof x)]: [n] zeroed cells. *)
Definition mem_zalloc {A : Type} (zero : A) (n : Z) : list A :=
  replicate (Z.to_nat n) zero.

(** [mem_realloc(a, n * sizeof *a)]: the first [n] slots are kept, slots
    beyond the old allocation hold whatever memory held. *)
Definition mem_realloc (a : list (option addr)) (n : Z) : list (option addr) :=
  take (Z.to_nat n) a ++ (junk <$> seq (length a) (Z.to_nat n - length a)).

(** Allocate a new chunk of the world. *)
Definition cave_new (w : world) (height width : Z) : addr * world :=
  let c := fresh (dom (chunks w)) in
  let row := mem_zalloc (Square (mem_zalloc 0 SQUARE_SIZE) None None) width in
  let ch :=
    {| name := None;
       created_at := turn w;
       height := height;
       width := width;
       feat_count := mem_zalloc 0 (f_max w + 1);
       squares := mem_zalloc row height;
       objects := mem_zalloc None OBJECT_LIST_SIZE;
       obj_max := OBJECT_LIST_SIZE - 1;
       monsters := level_monster_max w;
       mon_max := 1;
       mon_cnt := 0;
       mon_current := -1 |} in
  (c, store_chunk w c ch).

(** ** The object list *)

(** [(c == cave) && player->cave->objects[i]] *)
Definition known_object_at (w : world) (c : addr) (i : Z) : result bool :=
  if decide (cave w = Some c) then
    match player_cave w with
    | Some kp =>
        k ← deref (chunks w) kp;
        s ← array_get (objects k) i;
        Ok (bool_decide (s ≠ None))
    | None => Undefined
    end
  else Ok false.

(** The duplicate check: [n] iterations from index [i]. *)
Fixpoint scan_duplicate (n : nat) (i : Z) (a : list (option addr)) (o : addr)
  : result bool :=
  match n with
  | O => Ok false
  | S n' =>
      s ← array_get a i;
      if decide (s = Some o) then Ok true else scan_duplicate n' (i + 1) a o
  end.

(** The search for a hole: [n] iterations from index [i]; the result is
    the index at which the object is put, if any. *)
Fixpoint find_hole (n : nat) (i : Z) (w : world) (c : addr)
    (a : list (option addr)) : result (option Z) :=
  match n with
  | O => Ok None
  | S n' =>
      known ← known_object_at w c i;
      if (known : bool) then find_hole n' (i + 1) w c a
      else
        s ← array_get a i;
        if decide (s = None) then Ok (Some i) else find_hole n' (i + 1) w c a
  end.

(** Enter an object in the list of objects for the chunk. *)
Definition list_object (w : world) (c : addr) (obj : option addr)
  : result world :=
  match obj with
  | None => Ok w
  | Some o =>
      ch ← deref (chunks w) c;
      let n := Z.to_nat (obj_max ch - 1) in
      dup ← scan_duplicate n 1 (objects ch) o;
      if (dup : bool) then Ok w
      else
        hole ← find_hole n 1 w c (objects ch);
        match hole with
        | Some i =>
            a ← array_set (objects ch) i (Some o);
            store_oidx (store_chunk w c (set_objects ch a)) o i
        | None =>
            let newsize := obj_max ch + OBJECT_LIST_INCR + 1 in
            a ← array_set (mem_realloc (objects ch) newsize) (obj_max ch) (Some o);
            w1 ← store_oidx w o (obj_max ch);
            a ← null_range (Z.to_nat OBJECT_LIST_INCR) (obj_max ch + 1) a;
            let ch' := set_obj_max (set_objects ch a) (obj_max ch + OBJECT_LIST_INCR) in
            let w2 := store_chunk w1 c ch' in
            if decide (cave w2 = Some c) then
              match player_cave w2 with
              | Some kp =>
                  k ← deref (chunks w2) kp;
                  ka ← null_range (Z.to_nat (obj_max ch' - obj_max k + 1))
                         (obj_max k) (mem_realloc (objects k) newsize);
                  Ok (store_chunk w2 kp (set_obj_max (set_objects k ka) (obj_max ch')))
              | None => Undefined
              end
            else Ok w2
        end
  end.

(** Remove an object from the list of objects for the chunk. *)
Definition delist_object (w : world) (c : addr) (o : addr) : result world :=
  ob ← deref (objs w) o;
  if decide (oidx ob = 0) then Ok w
  else
    ch ← deref (chunks w) c;
    s ← array_get (objects ch) (oidx ob);
    if decide (s = Some o) then
      known ← known_object_at w c (oidx ob);
      if (known : bool) then Ok w
      else
        a ← array_set (objects ch) (oidx ob) None;
        store_oidx (store_chunk w c (set_objects ch a)) o 0
    else Abort.

End Model.

Section Geometry.
Context `{!Oracles}.

(** ** Scatter *)

(** The locals of [scatter] and the generator. *)
Record scatter_state := ScatterState {
  tries : Z;
  ny : Z;
  nx : Z;
  gen : rng
}.

(** "Pick a new location": [ny] is drawn before [nx]. *)
Definition pick (g : rng) (y x d : Z) : Z * Z * rng :=
  let '(ny, g1) := rand_spread g y d in
  let '(nx, g2) := rand_spread g1 x d in
  (ny, nx, g2).

(** The [while] loop; [None] when [fuel] iterations did not end it.  A
    recursive call is a [continue], [Some] is a [break] or the end of the
    loop. *)
Fixpoint scatter_loop (fuel : nat) (w : world) (c : option addr) (y x d : Z)
    (need_los : bool) (st : scatter_state) : option scatter_state :=
  match fuel with
  | O => None
  | S fuel' =>
      if decide (tries st < 1000000) then
        let '(ny, nx, g) := pick (gen st) y x d in
        let st' := ScatterState (tries st + 1) ny nx g in
        if negb (square_in_bounds_fully w c ny nx) then
          scatter_loop fuel' w c y x d need_los st'
        else if (1 <? d) && (d <? distance y x ny nx) then
          scatter_loop fuel' w c y x d need_los st'
        else if negb need_los then Some st'
        else if need_los && los w c y x ny nx then Some st'
        else scatter_loop fuel' w c y x d need_los st'
      else Some st
  end.

(** Standard "find me a location" function.  [ny0] and [nx0] are the
    indeterminate initial values of the locals; the result is the pair
    written to [*yp] and [*xp], and the generator. *)
Definition scatter (fuel : nat) (w : world) (c : option addr) (y x d : Z)
    (need_los : bool) (g : rng) (ny0 nx0 : Z) : option (Z * Z * rng) :=
  st ← scatter_loop fuel w c y x d need_los (ScatterState 0 ny0 nx0 g);
  Some (ny st, nx st, gen st).

(** The generator after [k] picks, and the location of pick [k]
    (counted from 0). *)
Fixpoint nth_gen (k : nat) (g : rng) (y x d : Z) : rng :=
  match k with
  | O => g
  | S k' => nth_gen k' (pick g y x d).2 y x d
  end.

Definition nth_pick (k : nat) (g : rng) (y x d : Z) : Z * Z :=
  (pick (nth_gen k g y x d) y x d).1.

(** ** Counting features around the character *)

(** The loop of [count_feats]: [n] iterations from direction index [d].
    [y] and [x] are the out-parameters: [None] for a null pointer,
    otherwise the integer pointed to. *)
Fixpoint count_feats_loop (n d : nat) (w : world)
    (test : world → option addr → Z → Z → bool) (under : bool)
    (count : Z) (y x : option Z) : Z * option Z * option Z :=
  match n with
  | O => (count, y, x)
  | S n' =>
      if (d =? 8)%nat && negb under then
        count_feats_loop n' (S d) w test under count y x
      else
        let yy := player_py w + ddy_ddd !!! d in
        let xx := player_px w + ddx_ddd !!! d in
        if negb (square_in_bounds_fully w (cave w) yy xx) then
          count_feats_loop n' (S d) w test under count y x
        else if negb (square_isknown w (cave w) yy xx) then
          count_feats_loop n' (S d) w test under count y x
        else if negb (test w (cave w) yy xx) then
          count_feats_loop n' (S d) w test under count y x
        else
          match x, y with
          | Some _, Some _ =>
              count_feats_loop n' (S d) w test under (count + 1) (Some yy) (Some xx)
          | _, _ => count_feats_loop n' (S d) w test under (count + 1) y x
          end
  end.

(** Return the number of doors/traps around (or under) the character. *)
Definition count_feats (w : world) (y x : option Z)
    (test : world → option addr → Z → Z → bool) (under : bool)
  : Z * option Z * option Z :=
  count_feats_loop 9 0 w test under 0 y x.

End Geometry.

(** ** Invariants of the object list *)

(** The representation invariant of an object index: slots [0] to
    [obj_max] are allocated, and the last one is empty. *)
Definition chunk_wf (ch : chunk) : Prop :=
  1 ≤ obj_max ch ∧
  length (objects ch) = Z.to_nat (obj_max ch + 1) ∧
  objects ch !! Z.to_nat (obj_max ch) = Some None.

(** [c] points to [ch], a well-formed chunk; when it is the active chunk,
    the player's known chunk is another, well-formed chunk with the same
    [obj_max] (what [object_lists_check_integrity] asserts first). *)
Definition lists_ok (w : world) (c : addr) (ch : chunk) : Prop :=
  chunks w !! c = Some ch ∧ chunk_wf ch ∧
  (cave w = Some c →
   ∃ kp k, player_cave w = Some kp ∧ kp ≠ c ∧ chunks w !! kp = Some k ∧
           chunk_wf k ∧ obj_max k = obj_max ch).

(** [c] is the active chunk and the known chunk holds an object at [i]. *)
Definition known_holds (w : world) (c : addr) (i : Z) : Prop :=
  cave w = Some c ∧
  ∃ kp k o, player_cave w = Some kp ∧ chunks w !! kp = Some k ∧
            objects k !! Z.to_nat i = Some (Some o).

(** Slot [i] can receive an object; [i] is the first such slot. *)
Definition free_slot (w : world) (c : addr) (ch : chunk) (i : Z) : Prop :=
  1 ≤ i ∧ objects ch !! Z.to_nat i = Some None ∧ ¬ known_holds w c i.

Definition first_free_slot (w : world) (c : addr) (ch : chunk) (i : Z) : Prop :=
  free_slot w c ch i ∧ ∀ j, 1 ≤ j < i → ¬ free_slot w c ch j.

(** What a call [list_object(c, o)] that puts [o] in slot [i] leaves
    behind: [w'] is the world after the call, [ch'] the chunk [c] points
    to in it. *)
Record list_post `{!Layout} (w : world) (c : addr) (ch : chunk) (o : addr)
    (i : Z) (w' : world) (ch' : chunk) : Prop := ListPost {
  post_chunk : chunks w' !! c = Some ch';
  post_obj_max :
    obj_max ch' =
    if decide (i = obj_max ch) then obj_max ch + OBJECT_LIST_INCR
    else obj_max ch;
  post_objects :
    objects ch' =
    <[Z.to_nat i := Some o]> (objects ch)
      ++ replicate (Z.to_nat (obj_max ch' - obj_max ch)) None;
  post_objs : objs w' = <[o := Object i]> (objs w);
  post_cave : cave w' = cave w;
  post_player_cave : player_cave w' = player_cave w;
  post_known :
    ∀ kp k, cave w = Some c → player_cave w = Some kp →
      chunks w !! kp = Some k →
      ∃ k', chunks w' !! kp = Some k' ∧
        objects k' =
        objects k ++ replicate (Z.to_nat (obj_max ch' - obj_max ch)) None ∧
        obj_max k' = obj_max ch';
  post_others :
    ∀ p, p ≠ c → (cave w = Some c → player_cave w ≠ Some p) →
      chunks w' !! p = chunks w !! p;
  post_ok : lists_ok w' c ch'
}.

(** The slots after slot [0] hold exactly the objects of [l], in order,
    followed by empty slots only. *)
Definition filled_prefix (ch : chunk) (l : list addr) : Prop :=
  ∃ m : nat, objects ch = None :: (Some <$> l) ++ replicate (S m) None.

(** ** Reference notions for the geometry claims *)

(** The eight cells around [(py, px)]. *)
Definition neighbours (py px : Z) : list (Z * Z) :=
  [(py + 1, px); (py - 1, px); (py, px + 1); (py, px - 1);
   (py + 1, px + 1); (py + 1, px - 1); (py - 1, px + 1); (py - 1, px - 1)].

(** A location that [scatter] keeps: fully in bounds, not further than
    [d] from the origin when [d > 1], in line of sight of the origin when
    that is required. *)
Definition accepted `{!Oracles} (w : world) (c : option addr) (y x d : Z)
    (need_los : bool) (ny nx : Z) : bool :=
  square_in_bounds_fully w c ny nx
  && negb ((1 <? d) && (d <? distance y x ny nx))
  && (negb need_los || los w c y x ny nx).

(** A cell of the active chunk that [count_feats] counts. *)
Definition counted `{!Oracles} (w : world)
    (test : world → option addr → Z → Z → bool) (p : Z * Z) : Prop :=
  square_in_bounds_fully w (cave w) p.1 p.2 = true ∧
  square_isknown w (cave w) p.1 p.2 = true ∧
  test w (cave w) p.1 p.2 = true.

#[global] Instance counted_dec `{!Oracles} w test p : Decision (counted w test p).
Proof. unfold counted. apply _. Defined.

(** What the out-parameters hold once the cells [l] were counted. *)
Definition recorded (y x : option Z) (l : list (Z * Z)) : option Z * option Z :=
  match x, y, last l with
  | Some _, Some _, Some p => (Some p.1, Some p.2)
  | _, _, _ => (y, x)
  end.

(** The cells of direction indices [d], ..., [d + n - 1] that are
    around the character (index 8 is the character's own cell). *)
Definition scanned (w : world) (d n : nat) : list (Z * Z) :=
  (λ i, (player_py w + ddy_ddd !!! i, player_px w + ddx_ddd !!! i))
    <$> seq d (n `min` (8 - d)).

(** ** Sample states *)

(** A layout with a small index, and non-null leftovers in the memory
    that [mem_realloc] hands out. *)
Definition ex_layout : Layout :=
  {| OBJECT_LIST_SIZE := 8;
     OBJECT_LIST_INCR := 4;
     SQUARE_SIZE := 3;
     junk := λ n, Some (Pos.of_succ_nat n) |}.

(** Collaborators for an open room: every square is known and in line
    of sight, [square_in_bounds_fully] excludes the border of the chunk,
    [distance] adds half the shorter leg to the longer one. *)
Definition ex_oracles : Oracles :=
  {| rng := Z;
     rand_spread := λ g a d, (a + g `mod` (1 + d + d) - d, g + 1);
     square_in_bounds_fully := λ w c y x,
       match c ≫= (chunks w !!.) with
       | Some ch =>
           (0 <? x) && (x <? width ch - 1) && (0 <? y) && (y <? height ch - 1)
       | None => false
       end;
     square_isknown := λ _ _ _ _, true;
     distance := λ y1 x1 y2 x2,
       let dy := Z.abs (y2 - y1) in
       let dx := Z.abs (x2 - x1) in
       if dx <? dy then dy + dx / 2 else dx + dy / 2;
     los := λ _ _ _ _ _ _, true |}.

Definition ex_empty_chunk (h wd : Z) : chunk :=
  {| name := None; created_at := 0; height := h; width := wd;
     feat_count := []; squares := [];
     objects := [None; None]; obj_max := 1;
     monsters := 0; mon_max := 1; mon_cnt := 0; mon_current := -1 |}.

(** The active chunk, full: slots 1 to 6 are taken. *)
Definition ex_chunk : chunk :=
  set_obj_max
    (set_objects (ex_empty_chunk 10 10)
       [None; Some 11; Some 12; Some 13; Some 14; Some 10; Some 15; None]%positive)
    7.

(** The known chunk: the player knows the object of slot 5. *)
Definition ex_known : chunk :=
  set_obj_max
    (set_objects (ex_empty_chunk 10 10)
       [None; None; None; None; None; Some 20; None; None]%positive)
    7.

(** No level yet: four unlisted objects. *)
Definition ex_idle : world :=
  {| chunks := ∅;
     objs := list_to_map
       [(10, Object 0); (11, Object 0); (12, Object 0); (13, Object 0)]%positive;
     cave := None; player_cave := None; player_py := 5; player_px := 5;
     turn := 42; f_max := 24; level_monster_max := 1024 |}.

(** A level in play: chunk 1 is active, chunk 2 is the known chunk,
    chunk 3 is a 2 by 2 chunk without any square inside its border.
    Object 16 is not listed; the [oidx] of object 17 points to a slot that
    holds another object. *)
Definition ex_play : world :=
  {| chunks := list_to_map
       [(1, ex_chunk); (2, ex_known); (3, ex_empty_chunk 2 2)]%positive;
     objs := list_to_map
       [(10, Object 5); (11, Object 1); (12, Object 2); (13, Object 3);
        (14, Object 4); (15, Object 6); (16, Object 0); (17, Object 2);
        (20, Object 5)]%positive;
     cave := Some 1%positive; player_cave := Some 2%positive;
     player_py := 5; player_px := 5;
     turn := 42; f_max := 24; level_monster_max := 1024 |}.

(** ** Further functions of [cave.c] *)

(** [struct feature]: only the name is read here, [None] being a null
    name. *)
Record feature := Feature { fname : option string }.

(** The loop of [lookup_feat]: [n] iterations from index [i].  Leaving
    the loop leads to [quit_fmt], which ends the process. *)
Fixpoint lookup_feat_loop (n : nat) (i : Z) (f_info : list feature)
    (name : string) : result Z :=
  match n with
  | O => Abort
  | S n' =>
      feat ← array_get f_info i;
      match fname feat with
      | None => lookup_feat_loop n' (i + 1) f_info name
      | Some s =>
          if decide (name = s) then Ok i
          else lookup_feat_loop n' (i + 1) f_info name
      end
  end.

(** Find a terrain feature index by name.  [f_info] is the global
    array, of which [z_info->f_max] entries are visited. *)
Definition lookup_feat (w : world) (f_info : list feature) (name : string)
  : result Z :=
  lookup_feat_loop (Z.to_nat (f_max w)) 0 f_info name.

(** The name of feature [i], if [i] is an index of the table and the
    feature has a name. *)
Definition feat_name (f_info : list feature) (i : Z) : option string :=
  if decide (0 ≤ i) then f_info !! Z.to_nat i ≫= fname else None.

(** The terrain constants, in the order [set_terrain] assigns them. *)
Record terrain := Terrain {
  FEAT_NONE : Z;
  FEAT_FLOOR : Z;
  FEAT_CLOSED : Z;
  FEAT_OPEN : Z;
  FEAT_BROKEN : Z;
  FEAT_LESS : Z;
  FEAT_MORE : Z;
  FEAT_SECRET : Z;
  FEAT_RUBBLE : Z;
  FEAT_PASS_RUBBLE : Z;
  FEAT_MAGMA : Z;
  FEAT_QUARTZ : Z;
  FEAT_MAGMA_K : Z;
  FEAT_QUARTZ_K : Z;
  FEAT_GRANITE : Z;
  FEAT_PERM : Z;
  FEAT_LAVA : Z
}.

(** The names [set_terrain] looks up, in the same order. *)
Definition terrain_names : list string :=
  ["unknown grid"; "open floor"; "closed door"; "open door"; "broken door";
   "up staircase"; "down staircase"; "secret door"; "pile of rubble";
   "pile of passable rubble"; "magma vein"; "quartz vein";
   "magma vein with treasure"; "quartz vein with treasure"; "granite wall";
   "permanent wall"; "lava"]%string.

(** Set terrain constants to the indices from terrain.txt. *)
Definition set_terrain (w : world) (f_info : list feature) : result terrain :=
  none ← lookup_feat w f_info "unknown grid";
  floor ← lookup_feat w f_info "open floor";
  closed ← lookup_feat w f_info "closed door";
  open ← lookup_feat w f_info "open door";
  broken ← lookup_feat w f_info "broken door";
  less ← lookup_feat w f_info "up staircase";
  more ← lookup_feat w f_info "down staircase";
  secret ← lookup_feat w f_info "secret door";
  rubble ← lookup_feat w f_info "pile of rubble";
  pass_rubble ← lookup_feat w f_info "pile of passable rubble";
  magma ← lookup_feat w f_info "magma vein";
  quartz ← lookup_feat w f_info "quartz vein";
  magma_k ← lookup_feat w f_info "magma vein with treasure";
  quartz_k ← lookup_feat w f_info "quartz vein with treasure";
  granite ← lookup_feat w f_info "granite wall";
  perm ← lookup_feat w f_info "permanent wall";
  lava ← lookup_feat w f_info "lava";
  Ok (Terrain none floor closed open broken less more secret rubble
        pass_rubble magma quartz magma_k quartz_k granite perm lava).

(** The constants as a list, in the order of [terrain_names]. *)
Definition terrain_values (t : terrain) : list Z :=
  [FEAT_NONE t; FEAT_FLOOR t; FEAT_CLOSED t; FEAT_OPEN t; FEAT_BROKEN t;
   FEAT_LESS t; FEAT_MORE t; FEAT_SECRET t; FEAT_RUBBLE t;
   FEAT_PASS_RUBBLE t; FEAT_MAGMA t; FEAT_QUARTZ t; FEAT_MAGMA_K t;
   FEAT_QUARTZ_K t; FEAT_GRANITE t; FEAT_PERM t; FEAT_LAVA t].





(** The cells of direction indices [d], ..., [d + n - 1], the
    character's own cell (index 8) among them. *)
Definition scanned_under (w : world) (d n : nat) : list (Z * Z) :=
  (λ i, (player_py w + ddy_ddd !!! i, player_px w + ddx_ddd !!! i))
    <$> seq d n.

(** The cells [count_feats] looks at: the eight around the character
    and, with [under], the character's own. *)
Definition scanned_cells (w : world) (under : bool) : list (Z * Z) :=
  neighbours (player_py w) (player_px w)
    ++ (if under then [(player_py w, player_px w)] else []).

(** The fields of [struct object] that [object_lists_check_integrity]
    reads besides [oidx]: the grid coordinates and the player's known
    version of the object.  They are kept in a store of their own, under
    the address of the object. *)
Record object_place := ObjectPlace {
  iy : Z;
  ix : Z;
  known : option addr
}.

(** [pile_contains] of obj-pile.c, which follows the links of a pile. *)
Class Piles := {
  pile_contains : option addr → addr → bool
}.

(** [assert(b)]. *)
Definition c_assert (b : bool) : result unit :=
  if b then Ok () else Abort.

(** [if (obj->iy && obj->ix)
      assert(pile_contains(c->squares[obj->iy][obj->ix].obj, obj))]. *)
Definition check_pile `{!Piles} (grid : list (list square))
    (pl : object_place) (o : addr) : result unit :=
  if negb (iy pl =? 0) && negb (ix pl =? 0) then
    row ← array_get grid (iy pl);
    sq ← array_get row (ix pl);
    c_assert (pile_contains (sq_obj sq) o)
  else Ok ().

(** The body of the loop of [object_lists_check_integrity], at index
    [i]. *)
Definition check_slot `{!Piles} (w : world)
    (places : gmap addr object_place) (ch c_k : chunk) (i : Z)
  : result unit :=
  obj ← array_get (objects ch) i;
  known_obj ← array_get (objects c_k) i;
  _ ← match obj with
      | Some o =>
          ob ← deref (objs w) o;
          _ ← c_assert (bool_decide (oidx ob = i));
          pl ← deref places o;
          check_pile (squares ch) pl o
      | None => Ok ()
      end;
  match known_obj with
  | Some ko =>
      match obj with
      | Some o =>
          pl ← deref places o;
          _ ← c_assert (bool_decide (Some ko = known pl));
          kpl ← deref places ko;
          _ ← check_pile (squares c_k) kpl ko;
          kob ← deref (objs w) ko;
          c_assert (bool_decide (oidx kob = i))
      | None => Abort
      end
  | None => Ok ()
  end.

(** The loop: [n] iterations from index [i]. *)
Fixpoint check_integrity_loop `{!Piles} (n : nat) (i : Z) (w : world)
    (places : gmap addr object_place) (ch c_k : chunk) : result unit :=
  match n with
  | O => Ok ()
  | S n' =>
      _ ← check_slot w places ch c_k i;
      check_integrity_loop n' (i + 1) w places ch c_k
  end.

(** Check that a pair of object lists are consistent and relate to
    locations of objects correctly. *)
Definition object_lists_check_integrity `{!Piles} (w : world)
    (places : gmap addr object_place) (c c_k : addr) : result unit :=
  ch ← deref (chunks w) c;
  k ← deref (chunks w) c_k;
  _ ← c_assert (bool_decide (obj_max ch = obj_max k));
  check_integrity_loop (Z.to_nat (obj_max ch)) 0 w places ch k.

(** The calls of a client of the object list of one chunk. *)
Inductive index_call :=
  | CallList (o : addr)
  | CallDelist (o : addr).

Definition call_object (k : index_call) : addr :=
  match k with
  | CallList o | CallDelist o => o
  end.

Definition run_call `{!Layout} (w : world) (c : addr) (k : index_call)
  : result world :=
  match k with
  | CallList o => list_object w c (Some o)
  | CallDelist o => delist_object w c o
  end.

(** The calls [ks] on chunk [c], one after the other. *)
Fixpoint run_calls `{!Layout} (w : world) (c : addr) (ks : list index_call)
  : result world :=
  match ks with
  | [] => Ok w
  | k :: ks' => w' ← run_call w c k; run_calls w' c ks'
  end.

(** Index and [oidx] agree on a chunk that is not the active one: slot 0
    is empty, an object in slot [i] has [oidx = i], and an object with a
    non-zero [oidx] is in the slot of that index. *)
Definition index_ok (w : world) (c : addr) (ch : chunk) : Prop :=
  lists_ok w c ch ∧ cave w ≠ Some c ∧
  objects ch !! 0%nat = Some None ∧
  (∀ (i : nat) o, objects ch !! i = Some (Some o) →
     objs w !! o = Some (Object (Z.of_nat i))) ∧
  (∀ o ob, objs w !! o = Some ob → oidx ob ≠ 0 →
     0 < oidx ob ∧ objects ch !! Z.to_nat (oidx ob) = Some (Some o)).

(** ** Further sample states *)

(** A feature table of 24 entries, as many as [f_max] in the sample
    worlds: the terrain of [set_terrain], some shops, and one entry
    without a name. *)
Definition ex_features : list feature :=
  Feature <$>
    [Some "unknown grid"; Some "open floor"; Some "closed door";
     Some "open door"; Some "broken door"; Some "up staircase";
     Some "down staircase"; Some "General Store"; Some "Armoury";
     Some "Weapon Smiths"; Some "Alchemy shop"; None; Some "Home";
     Some "secret door"; Some "pile of rubble"; Some "magma vein";
     Some "quartz vein"; Some "magma vein with treasure";
     Some "quartz vein with treasure"; Some "granite wall";
     Some "permanent wall"; Some "lava"; Some "pile of passable rubble";
     Some "Bookseller"]%string.

(** The same table with the name of feature 21 removed. *)
Definition ex_features_no_lava : list feature :=
  <[21%nat := Feature None]> ex_features.

(** A named 2 by 2 chunk with a trap in square (0, 1) and a pile in
    square (1, 0); objects 10 and 12 are listed in it. *)
Definition ex_vault : chunk :=
  {| name := Some 40%positive; created_at := 7; height := 2; width := 2;
     feat_count := [];
     squares := [[Square [] None None; Square [] (Some 41%positive) None];
                 [Square [] None (Some 12%positive); Square [] None None]];
     objects := [None; Some 10; None; Some 12; None]%positive; obj_max := 4;
     monsters := 0; mon_max := 1; mon_cnt := 0; mon_current := -1 |}.

(** No active level: the vault is chunk 3, objects 11 and 13 are not
    listed. *)
Definition ex_stash : world :=
  {| chunks := list_to_map [(3, ex_vault)]%positive;
     objs := list_to_map
       [(10, Object 1); (11, Object 0); (12, Object 3); (13, Object 0)]%positive;
     cave := None; player_cave := None; player_py := 5; player_px := 5;
     turn := 42; f_max := 24; level_monster_max := 1024 |}.

(** Where the objects of [ex_play] are: none is on the grid; object 20 is
    the known version of object 10. *)
Definition ex_places : gmap addr object_place :=
  list_to_map
    [(10, ObjectPlace 0 0 (Some 20)); (11, ObjectPlace 0 0 None);
     (12, ObjectPlace 0 0 None); (13, ObjectPlace 0 0 None);
     (14, ObjectPlace 0 0 None); (15, ObjectPlace 0 0 None);
     (16, ObjectPlace 0 0 None); (20, ObjectPlace 0 0 None)]%positive.

(** Piles of one object. *)
Definition ex_piles : Piles :=
  {| pile_contains := λ pile o, bool_decide (pile = Some o) |}.

(** A test that holds on the row below the character of [ex_play]. *)
Definition ex_test (w : world) (c : option addr) (y x : Z) : bool :=
  y =? player_py w + 1.

(** ** Arrays *)

Section Arrays.
Context {A : Type}.
Implicit Types (a : list A) (i : Z).

Lemma array_get_Ok a i x :
  0 ≤ i → a !! Z.to_nat i = Some x → array_get a i = Ok x.
Proof.
  intros Hi Hx. unfold array_get.
  destruct (decide (0 ≤ i)) as [_|?]; [|lia]. by rewrite Hx.
Qed.

Lemma array_get_inv a i x :
  array_get a i = Ok x → 0 ≤ i ∧ a !! Z.to_nat i = Some x.
Proof.
  unfold array_get. destruct (decide (0 ≤ i)); [|done].
  destruct (a !! Z.to_nat i) eqn:E; [|done]. intros [= ->]. done.
Qed.

Lemma array_set_Ok a i x :
  0 ≤ i → (Z.to_nat i < length a)%nat →
  array_set a i x = Ok (<[Z.to_nat i := x]> a).
Proof.
  intros Hi Hlen. unfold array_set.
  destruct (decide (0 ≤ i ∧ (Z.to_nat i < length a)%nat)) as [_|[]]; done.
Qed.

End Arrays.

Lemma null_range_Ok {A : Type} (n : nat) (from : Z) (l : list (option A)) :
  0 ≤ from → (Z.to_nat from + n ≤ length l)%nat →
  ∃ l', null_range n from l = Ok l' ∧ length l' = length l ∧
    ∀ j, l' !! j =
         if decide (Z.to_nat from ≤ j < Z.to_nat from + n)%nat then Some None
         else l !! j.
Proof.
  revert from l. induction n as [|n IH]; intros from l Hfrom Hlen.
  - exists l. split; [done|]. split; [done|]. intros j.
    destruct (decide _) as [?|_]; [lia|done].
  - simpl. rewrite array_set_Ok by lia. simpl.
    destruct (IH (from + 1) (<[Z.to_nat from := None]> l)) as (l' & Hrun & Hl & Hget).
    { lia. } { rewrite length_insert. lia. }
    exists l'. split; [done|]. split; [by rewrite Hl, length_insert|].
    intros j. rewrite Hget.
    destruct (decide (Z.to_nat (from + 1) ≤ j < Z.to_nat (from + 1) + n)%nat),
             (decide (Z.to_nat from ≤ j < Z.to_nat from + S n)%nat);
      try done; try lia.
    + destruct (decide (j = Z.to_nat from)) as [->|Hne].
      * rewrite list_lookup_insert_eq by lia. done.
      * lia.
    + by rewrite list_lookup_insert_ne by lia.
Qed.

Lemma null_range_tail {A : Type} (l junk : list (option A)) n from :
  n = length junk → from = Z.of_nat (length l) →
  null_range n from (l ++ junk) = Ok (l ++ replicate n None).
Proof.
  intros -> ->.
  destruct (null_range_Ok (length junk) (Z.of_nat (length l)) (l ++ junk))
    as (l' & -> & Hlen & Hget); [lia|rewrite length_app; lia|].
  f_equal. apply list_eq. intros j. rewrite Hget, Nat2Z.id.
  destruct (decide (length l ≤ j < length l + length junk)%nat) as [Hj|Hj].
  - rewrite lookup_app_r by lia. symmetry. apply lookup_replicate_2. lia.
  - destruct (decide (j < length l)%nat).
    + by rewrite !lookup_app_l by lia.
    + rewrite !lookup_ge_None_2; [done|..];
        rewrite length_app, ?length_replicate; lia.
Qed.

Lemma null_range_last_tail {A : Type} (l junk : list (option A)) n m :
  n = S (length junk) → 0 ≤ m → length l = S (Z.to_nat m) →
  l !! Z.to_nat m = Some None →
  null_range n m (l ++ junk) = Ok (l ++ replicate (length junk) None).
Proof.
  intros -> Hm Hlen Hlast. simpl.
  rewrite array_set_Ok by (rewrite ?length_app; lia). simpl.
  rewrite list_insert_id by (by apply lookup_app_l_Some).
  apply null_range_tail; [done|lia].
Qed.

(** ** The two scans of [list_object] *)

Section ObjectList.
Context `{!Layout}.

Lemma mem_realloc_grow a n :
  (length a ≤ Z.to_nat n)%nat →
  mem_realloc a n = a ++ (junk <$> seq (length a) (Z.to_nat n - length a)).
Proof. intros Hn. unfold mem_realloc. by rewrite take_ge. Qed.

Lemma known_object_at_spec w c ch i :
  lists_ok w c ch → 0 ≤ i ≤ obj_max ch →
  ∃ b, known_object_at w c i = Ok b ∧ (b = true ↔ known_holds w c i).
Proof.
  intros (Hc & Hwf & Hk) Hi. unfold known_object_at.
  destruct (decide (cave w = Some c)) as [Hact|Hina].
  - destruct (Hk Hact) as (kp & k & Hp & Hne & Hkc & (Hk1 & Hklen & Hklast) & Hmax).
    rewrite Hp. unfold deref. rewrite Hkc. simpl.
    destruct (lookup_lt_is_Some_2 (objects k) (Z.to_nat i)) as [s Hs]; [lia|].
    rewrite (array_get_Ok _ _ s) by (done || lia). simpl.
    exists (bool_decide (s ≠ None)). split; [done|].
    rewrite bool_decide_eq_true. split.
    + intros Hs'. destruct s as [o|]; [|done].
      split; [done|]. by exists kp, k, o.
    + intros (_ & kp' & k' & o & Hp' & Hkc' & Ho). congruence.
  - exists false. split; [done|]. split; [done|]. by intros [? _].
Qed.

Lemma scan_duplicate_true n i a o j :
  0 ≤ i → i ≤ j < i + Z.of_nat n → a !! Z.to_nat j = Some (Some o) →
  scan_duplicate n i a o = Ok true.
Proof.
  revert i. induction n as [|n IH]; intros i Hi Hj Ho; [lia|].
  simpl.
  destruct (lookup_lt_is_Some_2 a (Z.to_nat i)) as [s Hs].
  { apply lookup_lt_Some in Ho. lia. }
  rewrite (array_get_Ok _ _ s) by done. simpl.
  destruct (decide (s = Some o)) as [_|Hne]; [done|].
  apply IH; [lia| |done].
  destruct (decide (j = i)) as [->|]; [congruence|lia].
Qed.

Lemma scan_duplicate_false n i a o :
  0 ≤ i → (Z.to_nat i + n ≤ length a)%nat →
  (∀ j, i ≤ j < i + Z.of_nat n → a !! Z.to_nat j ≠ Some (Some o)) →
  scan_duplicate n i a o = Ok false.
Proof.
  revert i. induction n as [|n IH]; intros i Hi Hlen Hno; [done|].
  simpl.
  destruct (lookup_lt_is_Some_2 a (Z.to_nat i)) as [s Hs]; [lia|].
  rewrite (array_get_Ok _ _ s) by done. simpl.
  destruct (decide (s = Some o)) as [->|_].
  - exfalso. apply (Hno i); [lia|done].
  - apply IH; [lia|lia|]. intros j Hj. apply Hno. lia.
Qed.

Lemma find_hole_spec w c ch n i :
  lists_ok w c ch → 1 ≤ i → i + Z.of_nat n ≤ obj_max ch →
  ∃ r, find_hole n i w c (objects ch) = Ok r ∧
    match r with
    | Some j => i ≤ j < i + Z.of_nat n ∧ free_slot w c ch j ∧
                ∀ j', i ≤ j' < j → ¬ free_slot w c ch j'
    | None => ∀ j', i ≤ j' < i + Z.of_nat n → ¬ free_slot w c ch j'
    end.
Proof.
  intros Hok. revert i. induction n as [|n IH]; intros i Hi Hn.
  - exists None. split; [done|]. intros j' ?. lia.
  - simpl.
    destruct (known_object_at_spec w c ch i Hok) as (b & -> & Hb); [lia|].
    simpl.
    destruct (IH (i + 1)) as (r & Hr & Hspec); [lia|lia|].
    assert (Hrest : ¬ free_slot w c ch i →
      ∃ r, find_hole n (i + 1) w c (objects ch) = Ok r ∧
        match r with
        | Some j => i ≤ j < i + Z.of_nat (S n) ∧ free_slot w c ch j ∧
                    ∀ j', i ≤ j' < j → ¬ free_slot w c ch j'
        | None => ∀ j', i ≤ j' < i + Z.of_nat (S n) → ¬ free_slot w c ch j'
        end).
    { intros Hnot. exists r. split; [done|]. destruct r as [j|].
      - destruct Hspec as (Hj & Hfree & Hfirst). split; [lia|]. split; [done|].
        intros j' Hj'. destruct (decide (j' = i)) as [->|]; [done|].
        apply Hfirst. lia.
      - intros j' Hj'. destruct (decide (j' = i)) as [->|]; [done|].
        apply Hspec. lia. }
    destruct b.
    + apply Hrest. intros (_ & _ & Hnk). apply Hnk, Hb. done.
    + destruct Hok as (Hc & (H1 & Hlen & Hlast) & Hk).
      destruct (lookup_lt_is_Some_2 (objects ch) (Z.to_nat i)) as [s Hs]; [lia|].
      rewrite (array_get_Ok _ _ s) by (done || lia). simpl.
      destruct (decide (s = None)) as [->|Hne].
      * exists (Some i). split; [done|]. split; [lia|]. split.
        -- split; [done|]. split; [done|]. intros Hkh. apply Hb in Hkh. done.
        -- intros j' ?. lia.
      * apply Hrest. intros (_ & Hnone & _). congruence.
Qed.

(** ** Listing an object that the duplicate check does not find *)

Lemma list_object_fresh w c ch o ob :
  lists_ok w c ch → objs w !! o = Some ob → 0 < OBJECT_LIST_INCR →
  (∀ j, 1 ≤ j < obj_max ch → objects ch !! Z.to_nat j ≠ Some (Some o)) →
  ∃ i w' ch', list_object w c (Some o) = Ok w' ∧
    first_free_slot w c ch i ∧ 1 ≤ i ≤ obj_max ch ∧
    list_post w c ch o i w' ch'.
Proof.
  intros Hok Hob Hincr Hfresh.
  pose proof Hok as (Hc & (H1 & Hlen & Hlast) & Hk).
  unfold list_object, deref. rewrite Hc. simpl.
  rewrite scan_duplicate_false; [|lia|lia|intros; apply Hfresh; lia]. simpl.
  destruct (find_hole_spec w c ch (Z.to_nat (obj_max ch - 1)) 1 Hok)
    as (r & -> & Hr); [lia|lia|]. simpl.
  destruct r as [i|].
  - destruct Hr as (Hi & Hfree & Hfirst).
    rewrite array_set_Ok by lia. simpl.
    unfold store_oidx, deref. simpl. rewrite Hob. simpl.
    exists i. eexists. exists (set_objects ch (<[Z.to_nat i := Some o]> (objects ch))).
    split; [reflexivity|]. split; [split; [done|intros; apply Hfirst; lia]|].
    split; [lia|].
    constructor; simpl.
    + apply lookup_insert_eq.
    + by rewrite decide_False by lia.
    + by rewrite Z.sub_diag, app_nil_r.
    + done.
    + done.
    + done.
    + intros kp k Hact Hp Hkc. destruct (Hk Hact) as (kp' & k' & Hp' & Hne & Hkc' & _ & Hmax).
      assert (kp' = kp) as -> by congruence. assert (k' = k) as -> by congruence.
      exists k. rewrite lookup_insert_ne by done.
      by rewrite Z.sub_diag, app_nil_r.
    + intros p Hp _. by rewrite lookup_insert_ne.
    + split; [apply lookup_insert_eq|]. split.
      * split; [done|]. simpl. rewrite length_insert. split; [done|].
        by rewrite list_lookup_insert_ne by lia.
      * simpl. intros Hact. destruct (Hk Hact) as (kp & k & Hp & Hne & Hkc & Hkwf & Hmax).
        exists kp, k. by rewrite lookup_insert_ne.
  - rewrite mem_realloc_grow by lia.
    rewrite array_set_Ok by (rewrite ?length_app; lia). simpl.
    unfold store_oidx, deref. simpl. rewrite Hob. simpl.
    rewrite insert_app_l by lia.
    set (J := junk <$> seq _ _).
    assert (HJ : length J = Z.to_nat OBJECT_LIST_INCR)
      by (unfold J; rewrite length_fmap, length_seq; lia).
    rewrite (null_range_tail _ J) by (rewrite ?length_insert; lia). simpl.
    assert (Hgrow : Z.to_nat (obj_max ch + OBJECT_LIST_INCR - obj_max ch)
                    = Z.to_nat OBJECT_LIST_INCR) by lia.
    assert (Hfirst : first_free_slot w c ch (obj_max ch)).
    { split; [|intros; apply Hr; lia].
      split; [done|]. split; [done|].
      intros (Hact & kp' & k' & o' & Hp' & Hkc' & Ho').
      destruct (Hk Hact) as (kp & k & Hp & _ & Hkc & (_ & _ & Hklast) & Hmax).
      congruence. }
    exists (obj_max ch).
    destruct (decide (cave w = Some c)) as [Hact|Hina].
    + destruct (Hk Hact) as (kp & k & Hp & Hne & Hkc & (Hk1 & Hklen & Hklast) & Hmax).
      rewrite Hp. rewrite lookup_insert_ne by done. rewrite Hkc. simpl.
      rewrite mem_realloc_grow by lia.
      set (J' := junk <$> seq _ _).
      assert (HJ' : length J' = Z.to_nat OBJECT_LIST_INCR)
        by (unfold J'; rewrite length_fmap, length_seq; lia).
      rewrite (null_range_last_tail _ J') by (done || lia). simpl.
      eexists.
      exists (set_obj_max
                (set_objects ch
                   (<[Z.to_nat (obj_max ch) := Some o]> (objects ch)
                      ++ replicate (Z.to_nat OBJECT_LIST_INCR) None))
                (obj_max ch + OBJECT_LIST_INCR)).
      split; [reflexivity|]. split; [done|]. split; [lia|].
      constructor; simpl.
      * rewrite lookup_insert_ne by done. apply lookup_insert_eq.
      * by rewrite decide_True.
      * by rewrite Hgrow.
      * done.
      * done.
      * done.
      * intros kp0 k0 _ Hp0 Hkc0.
        assert (kp0 = kp) as -> by congruence. assert (k0 = k) as -> by congruence.
        eexists. split; [apply lookup_insert_eq|]. simpl.
        by rewrite Hgrow, HJ'.
      * intros p Hpc Hpk. rewrite !lookup_insert_ne; [done|done|].
        intros ->. by apply Hpk.
      * unfold lists_ok. simpl.
        split; [rewrite lookup_insert_ne by done; apply lookup_insert_eq|].
        split.
        -- split; simpl; [lia|]. rewrite length_app, length_insert, length_replicate.
           split; [lia|]. rewrite lookup_app_r by (rewrite length_insert; lia).
           apply lookup_replicate_2. rewrite length_insert. lia.
        -- intros _. exists kp. eexists. split; [done|]. split; [done|].
           split; [apply lookup_insert_eq|]. split; [|done].
           split; simpl; [lia|]. rewrite length_app, length_replicate.
           split; [lia|]. rewrite lookup_app_r by lia.
           apply lookup_replicate_2. lia.
    + eexists.
      exists (set_obj_max
                (set_objects ch
                   (<[Z.to_nat (obj_max ch) := Some o]> (objects ch)
                      ++ replicate (Z.to_nat OBJECT_LIST_INCR) None))
                (obj_max ch + OBJECT_LIST_INCR)).
      split; [reflexivity|]. split; [done|]. split; [lia|].
      constructor; simpl.
      * apply lookup_insert_eq.
      * by rewrite decide_True.
      * by rewrite Hgrow.
      * done.
      * done.
      * done.
      * intros kp k Hact. done.
      * intros p Hpc _. by rewrite lookup_insert_ne.
      * split; [apply lookup_insert_eq|]. split; [|done].
        split; simpl; [lia|]. rewrite length_app, length_insert, length_replicate.
        split; [lia|]. rewrite lookup_app_r by (rewrite length_insert; lia).
        apply lookup_replicate_2. rewrite length_insert. lia.
Qed.

Lemma list_object_found w c ch o j :
  chunks w !! c = Some ch → 1 ≤ j < obj_max ch →
  objects ch !! Z.to_nat j = Some (Some o) →
  list_object w c (Some o) = Ok w.
Proof.
  intros Hc Hj Ho. unfold list_object, deref. rewrite Hc. simpl.
  by rewrite (scan_duplicate_true _ _ _ _ j) by (done || lia).
Qed.

Lemma list_post_lookup w c ch o i w' ch' :
  chunk_wf ch → 1 ≤ i ≤ obj_max ch → 0 < OBJECT_LIST_INCR →
  list_post w c ch o i w' ch' →
  objects ch' !! Z.to_nat i = Some (Some o) ∧ i < obj_max ch'.
Proof.
  intros (H1 & Hlen & Hlast) Hi Hincr Hpost. split.
  - rewrite (post_objects _ _ _ _ _ _ _ Hpost).
    rewrite lookup_app_l by (rewrite length_insert; lia).
    apply list_lookup_insert_eq. lia.
  - rewrite (post_obj_max _ _ _ _ _ _ _ Hpost).
    destruct (decide (i = obj_max ch)); lia.
Qed.

(** ** Delisting *)

Lemma delist_object_unlisted w c o ob :
  objs w !! o = Some ob → oidx ob = 0 → delist_object w c o = Ok w.
Proof.
  intros Hob Hz. unfold delist_object, deref. rewrite Hob. simpl.
  by rewrite decide_True.
Qed.

Lemma delist_object_mismatch w c ch o ob s :
  objs w !! o = Some ob → 0 < oidx ob → chunks w !! c = Some ch →
  objects ch !! Z.to_nat (oidx ob) = Some s → s ≠ Some o →
  delist_object w c o = Abort.
Proof.
  intros Hob Hpos Hc Hs Hne. unfold delist_object, deref. rewrite Hob. simpl.
  rewrite decide_False by lia. rewrite Hc. simpl.
  rewrite (array_get_Ok _ _ s) by (done || lia). simpl.
  by rewrite decide_False.
Qed.

Lemma delist_object_cleared w c ch o ob :
  lists_ok w c ch → objs w !! o = Some ob → 0 < oidx ob →
  objects ch !! Z.to_nat (oidx ob) = Some (Some o) →
  ¬ known_holds w c (oidx ob) →
  ∃ w' ch', delist_object w c o = Ok w' ∧
    objs w' = <[o := Object 0]> (objs w) ∧
    objects ch' = <[Z.to_nat (oidx ob) := None]> (objects ch) ∧
    obj_max ch' = obj_max ch ∧ cave w' = cave w ∧
    lists_ok w' c ch'.
Proof.
  intros Hok Hob Hpos Hs Hnk.
  pose proof Hok as (Hc & (H1 & Hlen & Hlast) & Hk).
  pose proof (lookup_lt_Some _ _ _ Hs) as Hlt.
  destruct (known_object_at_spec w c ch (oidx ob) Hok) as (b & Hb & Hiff); [lia|].
  unfold delist_object, deref. rewrite Hob. simpl.
  rewrite decide_False by lia. rewrite Hc. simpl.
  rewrite (array_get_Ok _ _ (Some o)) by (done || lia). simpl.
  rewrite decide_True by done. rewrite Hb. simpl.
  destruct b; [by destruct Hnk; apply Hiff|].
  rewrite array_set_Ok by lia. simpl.
  unfold store_oidx, deref. simpl. rewrite Hob. simpl.
  eexists. exists (set_objects ch (<[Z.to_nat (oidx ob) := None]> (objects ch))).
  split; [reflexivity|]. simpl. do 4 (split; [done|]).
  unfold lists_ok. simpl. split; [apply lookup_insert_eq|]. split.
  - split; [done|]. simpl. rewrite length_insert. split; [done|].
    destruct (decide (Z.to_nat (oidx ob) = Z.to_nat (obj_max ch))) as [He|Hne].
    + rewrite He. apply list_lookup_insert_eq. lia.
    + by rewrite list_lookup_insert_ne.
  - intros Hact. destruct (Hk Hact) as (kp & k & Hp & Hne & Hkc & Hkwf & Hmax).
    exists kp, k. by rewrite lookup_insert_ne.
Qed.

(** ** Creation *)

Lemma cave_new_ok w h wd :
  1 < OBJECT_LIST_SIZE → cave w ≠ Some (cave_new w h wd).1 →
  ∃ ch, lists_ok (cave_new w h wd).2 (cave_new w h wd).1 ch ∧
    objects ch = replicate (Z.to_nat OBJECT_LIST_SIZE) None ∧
    objs (cave_new w h wd).2 = objs w ∧
    cave (cave_new w h wd).2 = cave w.
Proof.
  intros Hsize Hina. unfold cave_new in *. simpl in *.
  eexists. split.
  - split; [apply lookup_insert_eq|]. split; [|done].
    split; simpl; [lia|]. unfold mem_zalloc. rewrite length_replicate.
    split; [f_equal; lia|]. apply lookup_replicate_2. lia.
  - done.
Qed.

(** ** Chunks filled from slot 1 on *)

Lemma filled_prefix_lookup ch l (j : nat) o :
  filled_prefix ch l → objects ch !! j = Some (Some o) → o ∈ l.
Proof.
  intros [m Hshape] Hj. apply list_elem_of_lookup_2 in Hj.
  rewrite Hshape in Hj.
  apply elem_of_cons in Hj as [?|Hj]; [done|].
  apply elem_of_app in Hj as [Hj|Hj].
  - apply list_elem_of_fmap in Hj as (o' & [= ->] & ?). done.
  - apply elem_of_replicate in Hj as [? _]. done.
Qed.

Lemma first_free_slot_prefix w c ch l i :
  cave w ≠ Some c → filled_prefix ch l → first_free_slot w c ch i →
  i = Z.of_nat (length l) + 1.
Proof.
  intros Hina [m Hshape] [(Hi & Hnone & _) Hfirst].
  assert (Hfree : free_slot w c ch (Z.of_nat (length l) + 1)).
  { split; [lia|]. split; [|by intros [? _]].
    rewrite Hshape.
    replace (Z.to_nat (Z.of_nat (length l) + 1)) with (S (length l)) by lia.
    simpl. rewrite lookup_app_r by (rewrite length_fmap; lia).
    rewrite length_fmap, Nat.sub_diag. done. }
  destruct (decide (i < Z.of_nat (length l) + 1)) as [Hlt|Hge].
  - exfalso. rewrite Hshape in Hnone.
    destruct (Z.to_nat i) as [|n] eqn:En; [lia|]. simpl in Hnone.
    rewrite lookup_app_l in Hnone by (rewrite length_fmap; lia).
    rewrite list_lookup_fmap in Hnone.
    destruct (l !! n); done.
  - destruct (decide (i = Z.of_nat (length l) + 1)) as [|Hne]; [done|].
    exfalso. apply (Hfirst (Z.of_nat (length l) + 1)); [lia|done].
Qed.

Lemma list_object_append w c ch l o :
  cave w ≠ Some c → lists_ok w c ch → filled_prefix ch l → o ∉ l →
  is_Some (objs w !! o) → 0 < OBJECT_LIST_INCR →
  ∃ w' ch', list_object w c (Some o) = Ok w' ∧ lists_ok w' c ch' ∧
    filled_prefix ch' (l ++ [o]) ∧
    objs w' = <[o := Object (Z.of_nat (length l) + 1)]> (objs w) ∧
    cave w' = cave w.
Proof.
  intros Hina Hok Hshape Hnotin [ob Hob] Hincr.
  destruct (list_object_fresh w c ch o ob) as (i & w' & ch' & Hrun & Hfirst & Hi & Hpost);
    [done..| |].
  { intros j _ Hj. apply Hnotin. by eapply filled_prefix_lookup. }
  pose proof (first_free_slot_prefix _ _ _ _ _ Hina Hshape Hfirst) as ->.
  exists w', ch'. split; [done|]. split; [by destruct Hpost|].
  split; [|by destruct Hpost].
  destruct Hok as (_ & (_ & Hlen & _) & _).
  pose proof (post_obj_max _ _ _ _ _ _ _ Hpost) as Hmax.
  pose proof (post_objects _ _ _ _ _ _ _ Hpost) as Hobjs.
  destruct Hshape as [m Hshape]. rewrite Hshape in Hlen, Hobjs.
  rewrite length_cons, length_app, length_fmap, length_replicate in Hlen.
  exists (m + Z.to_nat (obj_max ch' - obj_max ch) - 1)%nat.
  rewrite Hobjs.
  replace (Z.to_nat (Z.of_nat (length l) + 1)) with (S (length l)) by lia.
  simpl. f_equal.
  rewrite insert_app_r_alt by (rewrite length_fmap; lia).
  rewrite length_fmap, Nat.sub_diag. simpl.
  rewrite fmap_app, <- !app_assoc. simpl. do 2 f_equal.
  rewrite <- replicate_add.
  change (None :: replicate ?n None) with (replicate (S n) (@None addr)).
  f_equal. destruct (decide (Z.of_nat (length l) + 1 = obj_max ch)); lia.
Qed.

(** ** Every call of [list_object] on a well-formed chunk *)

Lemma duplicate_decided (a : list (option addr)) o (n : nat) i :
  (∃ j, i ≤ j < i + Z.of_nat n ∧ a !! Z.to_nat j = Some (Some o)) ∨
  (∀ j, i ≤ j < i + Z.of_nat n → a !! Z.to_nat j ≠ Some (Some o)).
Proof.
  revert i. induction n as [|n IH]; intros i.
  - right. intros j ?. lia.
  - destruct (decide (a !! Z.to_nat i = Some (Some o))) as [Hi|Hi].
    + left. exists i. split; [lia|done].
    + destruct (IH (i + 1)) as [(j & Hj & Ho)|Hno].
      * left. exists j. split; [lia|done].
      * right. intros j Hj. destruct (decide (j = i)) as [->|]; [done|].
        apply Hno. lia.
Qed.

Lemma list_object_cases w c ch o :
  lists_ok w c ch → is_Some (objs w !! o) → 0 < OBJECT_LIST_INCR →
  (list_object w c (Some o) = Ok w ∧
   ∃ j, 1 ≤ j < obj_max ch ∧ objects ch !! Z.to_nat j = Some (Some o)) ∨
  (∃ i w' ch', list_object w c (Some o) = Ok w' ∧
     first_free_slot w c ch i ∧ 1 ≤ i ≤ obj_max ch ∧
     list_post w c ch o i w' ch').
Proof.
  intros Hok [ob Hob] Hincr.
  destruct (duplicate_decided (objects ch) o (Z.to_nat (obj_max ch - 1)) 1)
    as [(j & Hj & Ho)|Hno].
  - left. destruct Hok as (Hc & (H1 & _) & _).
    split; [|exists j; split; [lia|done]].
    apply (list_object_found w c ch o j); [done|lia|done].
  - right. apply (list_object_fresh w c ch o ob); [done..|].
    intros j Hj. apply Hno. destruct Hok as (_ & (H1 & _) & _). lia.
Qed.

(** ** The invariant is kept *)

Lemma list_object_preserves w c ch obj w' :
  lists_ok w c ch → (∀ o, obj = Some o → is_Some (objs w !! o)) →
  0 < OBJECT_LIST_INCR → list_object w c obj = Ok w' →
  ∃ ch', lists_ok w' c ch'.
Proof.
  intros Hok Halloc Hincr Hrun. destruct obj as [o|].
  - destruct (list_object_cases w c ch o Hok) as [[Hsame _]|Hfresh];
      [by apply Halloc|done| |].
    + exists ch. congruence.
    + destruct Hfresh as (i & w'' & ch' & Hrun' & _ & _ & Hpost).
      exists ch'. rewrite Hrun in Hrun'. injection Hrun' as ->.
      by destruct Hpost.
  - exists ch. simpl in Hrun. congruence.
Qed.

Lemma delist_object_preserves w c ch o w' :
  lists_ok w c ch → delist_object w c o = Ok w' → ∃ ch', lists_ok w' c ch'.
Proof.
  intros Hok Hrun.
  destruct (objs w !! o) as [ob|] eqn:Hob;
    [|by unfold delist_object, deref in Hrun; rewrite Hob in Hrun].
  destruct (decide (oidx ob = 0)) as [Hz|Hnz].
  { exists ch. rewrite (delist_object_unlisted w c o ob) in Hrun by done.
    congruence. }
  pose proof Hok as (Hc & _ & _).
  pose proof Hrun as Hrun0.
  unfold delist_object, deref in Hrun. rewrite Hob in Hrun. simpl in Hrun.
  rewrite decide_False in Hrun by done. rewrite Hc in Hrun. simpl in Hrun.
  destruct (array_get (objects ch) (oidx ob)) as [s| |] eqn:Hget; try done.
  simpl in Hrun. destruct (decide (s = Some o)) as [->|]; [|done].
  apply array_get_inv in Hget as [Hpos Hs].
  destruct (known_object_at w c (oidx ob)) as [b| |] eqn:Hknown; try done.
  simpl in Hrun. destruct b.
  { exists ch. congruence. }
  destruct (delist_object_cleared w c ch o ob)
    as (w'' & ch' & Hrun' & _ & _ & _ & _ & Hok'); [done|done|lia|done| |].
  - destruct (known_object_at_spec w c ch (oidx ob) Hok) as (b & Hb & Hiff).
    { destruct Hok as (_ & (_ & Hlen & _) & _).
      apply lookup_lt_Some in Hs. lia. }
    rewrite Hknown in Hb. injection Hb as <-.
    intros Hkh. apply Hiff in Hkh. done.
  - exists ch'. congruence.
Qed.

End ObjectList.

(** * The claims *)

(** [o ∉ [o1; ...; on]] from hypotheses [o ≠ oi]. *)
Ltac solve_notin :=
  rewrite ?not_elem_of_cons; repeat split;
  first [congruence | apply not_elem_of_nil].

Section ObjectListClaims.
Context `{!Layout}.

(** C1.  On a well-formed chunk, [list_object] stores a non-null object
    that the index does not hold yet at the first index [i >= 1] whose
    slot is empty and, when the chunk is the active one, at which the
    known chunk holds no object; it sets [oidx] to [i], so that afterwards
    [objects[oidx]] is the object and [oidx] is not zero.  In particular,
    on a freshly created chunk that is not the active one, after listing
    three objects and delisting the second, a fourth object is listed in
    the slot that the second one had, and the index does not grow. *)
Theorem list_object_first_free_slot :
  0 < OBJECT_LIST_INCR → 1 < OBJECT_LIST_SIZE →
  (∀ w c ch o,
     lists_ok w c ch → is_Some (objs w !! o) → Some o ∉ objects ch →
     ∃ i w' ch', list_object w c (Some o) = Ok w' ∧
       first_free_slot w c ch i ∧
       chunks w' !! c = Some ch' ∧
       objs w' !! o = Some (Object i) ∧
       objects ch' !! Z.to_nat i = Some (Some o) ∧ i ≠ 0) ∧
  (∀ w h wd o1 o2 o3 o4,
     cave w ≠ Some (cave_new w h wd).1 →
     NoDup [o1; o2; o3; o4] →
     Forall (λ o, is_Some (objs w !! o)) [o1; o2; o3; o4] →
     let c := (cave_new w h wd).1 in
     ∃ w1 w2 w3 w4 w5 ch3 ch5 i,
       list_object (cave_new w h wd).2 c (Some o1) = Ok w1 ∧
       list_object w1 c (Some o2) = Ok w2 ∧
       list_object w2 c (Some o3) = Ok w3 ∧
       delist_object w3 c o2 = Ok w4 ∧
       list_object w4 c (Some o4) = Ok w5 ∧
       objs w3 !! o2 = Some (Object i) ∧
       objs w5 !! o4 = Some (Object i) ∧
       chunks w3 !! c = Some ch3 ∧ chunks w5 !! c = Some ch5 ∧
       objects ch5 !! Z.to_nat i = Some (Some o4) ∧
       obj_max ch5 = obj_max ch3 ∧
       length (objects ch5) = length (objects ch3)).
Proof.
  intros Hincr Hsize. split.
  - intros w c ch o Hok [ob Hob] Hnotin.
    destruct (list_object_fresh w c ch o ob) as (i & w' & ch' & Hrun & Hfirst & Hi & Hpost);
      [done..| |].
    { intros j _ Hj. apply Hnotin. by eapply list_elem_of_lookup_2. }
    exists i, w', ch'. split; [done|]. split; [done|].
    split; [by destruct Hpost|]. split.
    { rewrite (post_objs _ _ _ _ _ _ _ Hpost). apply lookup_insert_eq. }
    split; [|lia].
    destruct Hok as (_ & Hwf & _).
    by destruct (list_post_lookup _ _ _ _ _ _ _ Hwf Hi Hincr Hpost).
  - intros w h wd o1 o2 o3 o4 Hina Hnd Hall c.
    assert (Hne : o1 ≠ o2 ∧ o1 ≠ o3 ∧ o1 ≠ o4 ∧ o2 ≠ o3 ∧ o2 ≠ o4 ∧ o3 ≠ o4).
    { apply NoDup_cons in Hnd as [Hn1 Hnd]. apply NoDup_cons in Hnd as [Hn2 Hnd].
      apply NoDup_cons in Hnd as [Hn3 _].
      rewrite !not_elem_of_cons in Hn1. rewrite !not_elem_of_cons in Hn2.
      rewrite !not_elem_of_cons in Hn3. tauto. }
    destruct Hne as (H12 & H13 & H14 & H23 & H24 & H34).
    rewrite !Forall_cons in Hall. destruct Hall as (Ha1 & Ha2 & Ha3 & Ha4 & _).
    destruct (cave_new_ok w h wd Hsize Hina) as (ch0 & Hok0 & Hobjs0 & Hheap0 & Hcave0).
    fold c in Hok0, Hina.
    assert (Hshape0 : filled_prefix ch0 []).
    { exists (Z.to_nat OBJECT_LIST_SIZE - 2)%nat. rewrite Hobjs0. simpl.
      change (None :: replicate ?n None) with (replicate (S n) (@None addr)).
      change (None :: replicate ?n None) with (replicate (S n) (@None addr)).
      f_equal. lia. }
    destruct (list_object_append (cave_new w h wd).2 c ch0 [] o1)
      as (w1 & ch1 & Hrun1 & Hok1 & Hshape1 & Hheap1 & Hcave1);
      [congruence|done|done|solve_notin|by rewrite Hheap0|done|].
    destruct (list_object_append w1 c ch1 [o1] o2)
      as (w2 & ch2 & Hrun2 & Hok2 & Hshape2 & Hheap2 & Hcave2);
      [congruence|done|done|solve_notin| |done|].
    { rewrite Hheap1, Hheap0. by rewrite lookup_insert_ne. }
    destruct (list_object_append w2 c ch2 [o1; o2] o3)
      as (w3 & ch3 & Hrun3 & Hok3 & Hshape3 & Hheap3 & Hcave3);
      [congruence|done|done|solve_notin| |done|].
    { rewrite Hheap2, Hheap1, Hheap0. by rewrite !lookup_insert_ne. }
    simpl in Hheap1, Hheap2, Hheap3, Hshape1, Hshape2, Hshape3.
    destruct Hshape3 as [m Hshape3].
    assert (Ho2 : objs w3 !! o2 = Some (Object 2)).
    { rewrite Hheap3, lookup_insert_ne by done.
      rewrite Hheap2. apply lookup_insert_eq. }
    destruct (delist_object_cleared w3 c ch3 o2 (Object 2))
      as (w4 & ch4 & Hrun4 & Hheap4 & Hobjs4 & Hmax4 & Hcave4 & Hok4);
      [done|done|done|by rewrite Hshape3| |].
    { intros [Hact _]. congruence. }
    simpl in Hobjs4. rewrite Hshape3 in Hobjs4. simpl in Hobjs4.
    destruct Ha4 as [ob4 Hob4].
    destruct (list_object_fresh w4 c ch4 o4 ob4)
      as (i & w5 & ch5 & Hrun5 & Hfirst & Hi & Hpost); [done| |done| |].
    { rewrite Hheap4, Hheap3, Hheap2, Hheap1.
      by rewrite !lookup_insert_ne. }
    { intros j _ Hj. rewrite Hobjs4 in Hj.
      apply list_elem_of_lookup_2 in Hj. rewrite !elem_of_cons in Hj.
      destruct Hj as [?|[?|[?|[?|[?|Hj]]]]]; try done; [congruence..|].
      apply elem_of_replicate in Hj as [? _]. done. }
    assert (i = 2) as ->.
    { destruct Hfirst as [(Hi1 & Hnone & _) Hmin].
      assert (free_slot w4 c ch4 2).
      { split; [lia|]. split; [by rewrite Hobjs4|]. intros [Hact _]. congruence. }
      destruct (decide (i = 1)) as [->|]; [by rewrite Hobjs4 in Hnone|].
      destruct (decide (i = 2)) as [|]; [done|].
      exfalso. apply (Hmin 2); [lia|done]. }
    pose proof Hok3 as (Hc3 & (_ & Hlen3 & _) & _).
    pose proof Hok4 as (_ & Hwf4 & _). pose proof Hwf4 as (_ & Hlen4 & _).
    pose proof (post_ok _ _ _ _ _ _ _ Hpost) as (Hc5 & (_ & Hlen5 & _) & _).
    pose proof (post_obj_max _ _ _ _ _ _ _ Hpost) as Hmax5.
    rewrite Hobjs4 in Hlen4. simpl in Hlen4. rewrite length_replicate in Hlen4.
    rewrite decide_False in Hmax5 by lia.
    exists w1, w2, w3, w4, w5, ch3, ch5, 2.
    split_and!; try done.
    + rewrite (post_objs _ _ _ _ _ _ _ Hpost). apply lookup_insert_eq.
    + by destruct (list_post_lookup _ _ _ _ _ _ _ Hwf4 Hi Hincr Hpost).
    + congruence.
    + rewrite Hlen5, Hlen3. congruence.
Qed.

(** C2.  For an object listed at a non-zero index of the active chunk,
    while the known chunk holds an object at that index, [delist_object]
    returns with the world as it was: the object stays in its slot and its
    [oidx] keeps its value. *)
Theorem delist_object_blocked w c ch o ob :
  objs w !! o = Some ob → 0 < oidx ob → chunks w !! c = Some ch →
  objects ch !! Z.to_nat (oidx ob) = Some (Some o) →
  known_holds w c (oidx ob) →
  delist_object w c o = Ok w.
Proof.
  intros Hob Hpos Hc Hs (Hact & kp & k & o' & Hp & Hkc & Ho').
  unfold delist_object, deref. rewrite Hob. simpl.
  rewrite decide_False by lia. rewrite Hc. simpl.
  rewrite (array_get_Ok _ _ (Some o)) by (done || lia). simpl.
  rewrite decide_True by done.
  unfold known_object_at, deref. rewrite decide_True by done.
  rewrite Hp, Hkc. simpl.
  rewrite (array_get_Ok _ _ (Some o')) by (done || lia). simpl.
  done.
Qed.

(** C3.  When [list_object] on the active chunk extends the object
    index (which it does when the object is no duplicate and no slot can
    take it), the known chunk's [obj_max] afterwards is at least the
    active chunk's new [obj_max], both indexes have [obj_max + 1] slots,
    and every slot that either index did not have before is empty. *)
Theorem list_object_grows_known w c ch kp k o :
  lists_ok w c ch → cave w = Some c → player_cave w = Some kp →
  chunks w !! kp = Some k → is_Some (objs w !! o) → 0 < OBJECT_LIST_INCR →
  ((∀ j, 1 ≤ j < obj_max ch →
      objects ch !! Z.to_nat j ≠ Some (Some o) ∧ ¬ free_slot w c ch j) →
   ∃ w' ch', list_object w c (Some o) = Ok w' ∧ chunks w' !! c = Some ch' ∧
     obj_max ch < obj_max ch') ∧
  (∀ w' ch',
     list_object w c (Some o) = Ok w' → chunks w' !! c = Some ch' →
     obj_max ch < obj_max ch' →
     ∃ k', chunks w' !! kp = Some k' ∧ obj_max ch' ≤ obj_max k' ∧
       length (objects ch') = Z.to_nat (obj_max ch' + 1) ∧
       length (objects k') = Z.to_nat (obj_max k' + 1) ∧
       ∀ j : nat,
         (objects ch !! j = None → (j < length (objects ch'))%nat →
          objects ch' !! j = Some None) ∧
         (objects k !! j = None → (j < length (objects k'))%nat →
          objects k' !! j = Some None)).
Proof.
  intros Hok Hact Hp Hkc [ob Hob] Hincr. split.
  - intros Hfull.
    destruct (list_object_fresh w c ch o ob)
      as (i & w' & ch' & Hrun & [Hfree _] & Hi & Hpost); [done..| |].
    { intros j Hj. by apply Hfull. }
    exists w', ch'. split; [done|]. split; [by destruct Hpost|].
    rewrite (post_obj_max _ _ _ _ _ _ _ Hpost).
    destruct (decide (i = obj_max ch)) as [_|Hne]; [lia|].
    destruct (Hfull i) as [_ Hnot]; [lia|done].
  - intros w' ch' Hrun Hc' Hgrew.
    destruct (list_object_cases w c ch o Hok) as [[Hsame _]|Hfresh]; [by eexists|done| |].
    { destruct Hok as (Hc & _). rewrite Hsame in Hrun. injection Hrun as <-.
      rewrite Hc in Hc'. injection Hc' as <-. lia. }
    destruct Hfresh as (i & w'' & ch'' & Hrun' & _ & Hi & Hpost).
    rewrite Hrun in Hrun'. injection Hrun' as <-.
    rewrite (post_chunk _ _ _ _ _ _ _ Hpost) in Hc'. injection Hc' as <-.
    destruct (post_known _ _ _ _ _ _ _ Hpost kp k) as (k' & Hk' & Hkobjs & Hkmax);
      [done..|].
    pose proof (post_ok _ _ _ _ _ _ _ Hpost) as (_ & (_ & Hlen' & _) & Hknown').
    destruct Hknown' as (kp2 & k2 & Hp2 & _ & Hk2 & (_ & Hklen' & _) & _).
    { by rewrite (post_cave _ _ _ _ _ _ _ Hpost). }
    rewrite (post_player_cave _ _ _ _ _ _ _ Hpost), Hp in Hp2.
    injection Hp2 as <-. rewrite Hk' in Hk2. injection Hk2 as <-.
    exists k'. split; [done|]. split; [lia|]. split; [done|]. split; [done|].
    intros j. split.
    + intros Hnone Hj. apply lookup_ge_None_1 in Hnone.
      rewrite (post_objects _ _ _ _ _ _ _ Hpost) in Hj |- *.
      rewrite length_app, length_insert, length_replicate in Hj.
      rewrite lookup_app_r by (rewrite length_insert; lia).
      apply lookup_replicate_2. rewrite length_insert. lia.
    + intros Hnone Hj. apply lookup_ge_None_1 in Hnone.
      rewrite Hkobjs in Hj |- *. rewrite length_app, length_replicate in Hj.
      rewrite lookup_app_r by lia. apply lookup_replicate_2. lia.
Qed.

(** C4.  [delist_object] on an object whose [oidx] is zero returns with
    the world as it was.  On an object listed at a non-zero index of a
    well-formed chunk, with no object of the known chunk in the way, it
    returns, and afterwards the object's [oidx] is zero and its former
    slot is empty.  When the slot at the object's non-zero index holds
    something else, the call does not return: the assertion stops the
    process. *)
Theorem delist_object_spec w c o ob :
  objs w !! o = Some ob →
  (oidx ob = 0 → delist_object w c o = Ok w) ∧
  (∀ ch, lists_ok w c ch → 0 < oidx ob →
     objects ch !! Z.to_nat (oidx ob) = Some (Some o) →
     ¬ known_holds w c (oidx ob) →
     ∃ w' ch', delist_object w c o = Ok w' ∧
       objs w' !! o = Some (Object 0) ∧
       chunks w' !! c = Some ch' ∧
       objects ch' !! Z.to_nat (oidx ob) = Some None) ∧
  (∀ ch s, 0 < oidx ob → chunks w !! c = Some ch →
     objects ch !! Z.to_nat (oidx ob) = Some s → s ≠ Some o →
     delist_object w c o = Abort).
Proof.
  intros Hob. split_and!.
  - intros Hz. by eapply delist_object_unlisted.
  - intros ch Hok Hpos Hs Hnk.
    destruct (delist_object_cleared w c ch o ob)
      as (w' & ch' & Hrun & Hheap & Hobjs & _ & _ & Hok'); [done..|].
    exists w', ch'. split; [done|].
    split; [rewrite Hheap; apply lookup_insert_eq|].
    split; [by destruct Hok'|].
    rewrite Hobjs. apply list_lookup_insert_eq. by eapply lookup_lt_Some.
  - intros ch s Hpos Hc Hs Hne. by eapply delist_object_mismatch.
Qed.

(** C5.  On a well-formed chunk, for a null object or one that is
    allocated, [list_object] returns, and a second call with the same
    arguments returns with the world as the first call left it: the
    object index and the object's [oidx] are those after the first
    call. *)
Theorem list_object_idempotent w c ch obj :
  lists_ok w c ch → (∀ o, obj = Some o → is_Some (objs w !! o)) →
  0 < OBJECT_LIST_INCR →
  ∃ w', list_object w c obj = Ok w' ∧ list_object w' c obj = Ok w'.
Proof.
  intros Hok Halloc Hincr. destruct obj as [o|]; [|by exists w].
  destruct (list_object_cases w c ch o Hok) as [[Hsame _]|Hfresh]; [by apply Halloc|done| |].
  - by exists w.
  - destruct Hfresh as (i & w' & ch' & Hrun & _ & Hi & Hpost).
    exists w'. split; [done|].
    destruct Hok as (_ & Hwf & _).
    destruct (list_post_lookup _ _ _ _ _ _ _ Hwf Hi Hincr Hpost) as [Hlook Hlt].
    apply (list_object_found w' c ch' o i); [by destruct Hpost|lia|done].
Qed.

(** C6, as amended.  For positive [height] and [width], [cave_new] puts
    at a fresh address a chunk with that height and width, [mon_max = 1],
    [mon_cnt = 0], [created_at] the current [turn], a grid of [height]
    rows of [width] squares, and an object index of [OBJECT_LIST_SIZE]
    empty slots of which [obj_max = OBJECT_LIST_SIZE - 1] is the last
    index, not the number of slots. *)
Theorem cave_new_fields w h wd :
  0 < h → 0 < wd →
  chunks w !! (cave_new w h wd).1 = None ∧
  ∃ ch, chunks (cave_new w h wd).2 !! (cave_new w h wd).1 = Some ch ∧
    height ch = h ∧ width ch = wd ∧ mon_max ch = 1 ∧ mon_cnt ch = 0 ∧
    created_at ch = turn w ∧
    Z.of_nat (length (squares ch)) = h ∧
    Forall (λ row, Z.of_nat (length row) = wd) (squares ch) ∧
    objects ch = replicate (Z.to_nat OBJECT_LIST_SIZE) None ∧
    obj_max ch = OBJECT_LIST_SIZE - 1.
Proof.
  intros Hh Hwd. split.
  - apply not_elem_of_dom, is_fresh.
  - unfold cave_new. simpl. eexists. split; [apply lookup_insert_eq|].
    simpl. unfold mem_zalloc. rewrite length_replicate.
    split_and!; try done; [lia|].
    apply Forall_replicate. rewrite length_replicate. lia.
Qed.

End ObjectListClaims.

Section GeometryClaims.
Context `{!Oracles}.

(** ** The loop of [scatter] *)

Lemma nth_gen_succ k g y x d :
  nth_gen (S k) g y x d = (pick (nth_gen k g y x d) y x d).2.
Proof. revert g. induction k as [|k IH]; intros g; [done|]. simpl. apply IH. Qed.

Lemma accepted_true w c y x d need_los ny nx :
  accepted w c y x d need_los ny nx = true →
  square_in_bounds_fully w c ny nx = true ∧
  (1 < d → distance y x ny nx ≤ d) ∧
  (need_los = true → los w c y x ny nx = true).
Proof.
  unfold accepted. rewrite !andb_true_iff, negb_true_iff, andb_false_iff.
  rewrite orb_true_iff, negb_true_iff, Z.ltb_ge, Z.ltb_ge.
  intros [[Hin Hdist] Hlos]. split; [done|]. split; [lia|].
  intros ->. by destruct Hlos.
Qed.

(** One turn of the loop body ends the loop exactly on an accepted
    location. *)
Lemma scatter_loop_step w c y x d need_los st (fuel : nat) :
  tries st < 1000000 →
  scatter_loop (S fuel) w c y x d need_los st =
  let st' := ScatterState (tries st + 1) (pick (gen st) y x d).1.1
               (pick (gen st) y x d).1.2 (pick (gen st) y x d).2 in
  if accepted w c y x d need_los (ny st') (nx st') then Some st'
  else scatter_loop fuel w c y x d need_los st'.
Proof.
  intros Hlt. simpl. rewrite decide_True by done.
  destruct (pick (gen st) y x d) as [[ny1 nx1] g1]. simpl. unfold accepted.
  destruct (square_in_bounds_fully w c ny1 nx1); simpl; [|done].
  destruct ((1 <? d) && (d <? distance y x ny1 nx1)); simpl; [done|].
  destruct need_los; simpl; [|done].
  by destruct (los w c y x ny1 nx1).
Qed.

Lemma scatter_loop_from w c y x d need_los g (m : nat) :
  ∀ (fuel n : nat) ny0 nx0,
    Z.of_nat n + Z.of_nat m = 1000000 → (0 < m)%nat → (m < fuel)%nat →
    ∃ st, scatter_loop fuel w c y x d need_los
            (ScatterState (Z.of_nat n) ny0 nx0 (nth_gen n g y x d)) = Some st ∧
      Z.of_nat n < tries st ≤ 1000000 ∧
      gen st = nth_gen (Z.to_nat (tries st)) g y x d ∧
      (ny st, nx st) = nth_pick (Z.to_nat (tries st - 1)) g y x d ∧
      (∀ k : nat, (n ≤ k)%nat → Z.of_nat k < tries st - 1 →
         accepted w c y x d need_los (nth_pick k g y x d).1 (nth_pick k g y x d).2
         = false) ∧
      (accepted w c y x d need_los (ny st) (nx st) = true ∨ tries st = 1000000).
Proof.
  induction m as [|m IH]; intros fuel n ny0 nx0 Hsum Hpos Hfuel; [lia|].
  destruct fuel as [|fuel]; [lia|].
  rewrite scatter_loop_step by (simpl; lia). cbn [tries gen ny nx].
  pose proof (nth_gen_succ n g y x d) as Hgen.
  assert (Hpick : nth_pick n g y x d = (pick (nth_gen n g y x d) y x d).1) by done.
  destruct (pick (nth_gen n g y x d) y x d) as [[ny1 nx1] g1] eqn:Epick.
  cbn [fst snd] in *.
  destruct (accepted w c y x d need_los ny1 nx1) eqn:Eacc.
  - eexists. split; [done|]. cbn [tries gen ny nx].
    replace (Z.to_nat (Z.of_nat n + 1)) with (S n) by lia.
    replace (Z.to_nat (Z.of_nat n + 1 - 1)) with n by lia.
    split_and!; try done; try lia. by left.
  - destruct m as [|m].
    + destruct fuel as [|fuel]; [lia|]. simpl.
      rewrite decide_False by lia.
      eexists. split; [done|]. cbn [tries gen ny nx].
      replace (Z.to_nat (Z.of_nat n + 1)) with (S n) by lia.
      replace (Z.to_nat (Z.of_nat n + 1 - 1)) with n by lia.
      split_and!; try done; try lia.
    + rewrite <- Hgen. replace (Z.of_nat n + 1) with (Z.of_nat (S n)) by lia.
      destruct (IH fuel (S n) ny1 nx1) as (st & Hrun & Htries & Hg & Hloc & Hrej & Hend);
        [lia|lia|lia|].
      exists st. split; [done|]. split_and!; try done; try lia.
      intros k Hk Hlt. destruct (decide (k = n)) as [->|Hne].
      * by rewrite Hpick.
      * apply Hrej; lia.
Qed.

(** C7.  With enough fuel for its bound, the loop of [scatter] ends after
    at least one and at most 1,000,000 picks; [scatter] then returns the
    location it picked last together with the generator after that many
    picks.  When each of the 1,000,000 picks fails the tests of the loop,
    the location returned is the one of pick 1,000,000. *)
Theorem scatter_terminates w c y x d need_los g ny0 nx0 (fuel : nat) :
  1000000 < Z.of_nat fuel →
  ∃ st,
    scatter_loop fuel w c y x d need_los (ScatterState 0 ny0 nx0 g) = Some st ∧
    scatter fuel w c y x d need_los g ny0 nx0 = Some (ny st, nx st, gen st) ∧
    1 ≤ tries st ≤ 1000000 ∧
    gen st = nth_gen (Z.to_nat (tries st)) g y x d ∧
    (ny st, nx st) = nth_pick (Z.to_nat (tries st - 1)) g y x d ∧
    ((∀ k : nat, Z.of_nat k < 1000000 →
        accepted w c y x d need_los (nth_pick k g y x d).1 (nth_pick k g y x d).2
        = false) →
     tries st = 1000000 ∧
     (ny st, nx st) = nth_pick (Z.to_nat 999999) g y x d).
Proof.
  intros Hfuel.
  destruct (scatter_loop_from w c y x d need_los g (Z.to_nat 1000000) fuel 0%nat ny0 nx0)
    as (st & Hrun & [Hlo Hhi] & Hg & Hloc & Hrej & Hend); [lia..|].
  change (scatter_loop fuel w c y x d need_los (ScatterState 0 ny0 nx0 g) = Some st)
    in Hrun.
  exists st. unfold scatter. rewrite Hrun.
  split; [reflexivity|]. split; [reflexivity|]. split; [lia|].
  split; [exact Hg|]. split; [exact Hloc|].
  intros Hall.
  assert (tries st = 1000000) as Hlast.
  { destruct Hend as [Hacc|Hlast]; [|exact Hlast].
    specialize (Hall (Z.to_nat (tries st - 1))).
    rewrite <- Hloc in Hall. cbn [fst snd] in Hall.
    rewrite Hall in Hacc by lia. discriminate Hacc. }
  split; [exact Hlast|].
  replace (tries st - 1) with 999999 in Hloc by lia. exact Hloc.
Qed.

(** C8.  With enough fuel for its bound, when one of the first 1,000,000
    picks passes the tests of the loop, [scatter] returns a location that
    is fully in bounds, whose distance from the origin is at most [d]
    when [d > 1], and that has line of sight to the origin when
    [need_los] is set; it is the first pick that passes. *)
Theorem scatter_accepted w c y x d need_los g ny0 nx0 (fuel k : nat) :
  1000000 < Z.of_nat fuel → Z.of_nat k < 1000000 →
  accepted w c y x d need_los (nth_pick k g y x d).1 (nth_pick k g y x d).2
  = true →
  ∃ yp xp g' (j : nat),
    scatter fuel w c y x d need_los g ny0 nx0 = Some (yp, xp, g') ∧
    square_in_bounds_fully w c yp xp = true ∧
    (1 < d → distance y x yp xp ≤ d) ∧
    (need_los = true → los w c y x yp xp = true) ∧
    (j ≤ k)%nat ∧ (yp, xp) = nth_pick j g y x d ∧
    ∀ i : nat, (i < j)%nat →
      accepted w c y x d need_los (nth_pick i g y x d).1 (nth_pick i g y x d).2
      = false.
Proof.
  intros Hfuel Hk Hacc.
  destruct (scatter_loop_from w c y x d need_los g (Z.to_nat 1000000) fuel 0%nat ny0 nx0)
    as (st & Hrun & Htries & Hg & Hloc & Hrej & Hend); [lia..|].
  assert (Hj : (Z.to_nat (tries st - 1) ≤ k)%nat).
  { destruct (decide (Z.to_nat (tries st - 1) ≤ k)%nat) as [|Hgt]; [done|].
    rewrite Hrej in Hacc by lia. done. }
  assert (Hok : accepted w c y x d need_los (ny st) (nx st) = true).
  { destruct Hend as [|Hlast]; [done|].
    assert (k = Z.to_nat (tries st - 1)) as -> by lia.
    by rewrite <- Hloc in Hacc. }
  apply accepted_true in Hok as (Hin & Hdist & Hlos).
  exists (ny st), (nx st), (gen st), (Z.to_nat (tries st - 1)).
  change (scatter_loop fuel w c y x d need_los (ScatterState 0 ny0 nx0 g) = Some st)
    in Hrun.
  unfold scatter. rewrite Hrun. simpl.
  split_and!; try done.
  intros i Hi. apply Hrej; lia.
Qed.

(** ** The loop of [count_feats] *)

Lemma recorded_cons y x p l :
  recorded y x (p :: l) =
  match x, y with
  | Some _, Some _ => recorded (Some p.1) (Some p.2) l
  | _, _ => recorded y x l
  end.
Proof.
  unfold recorded. rewrite last_cons.
  destruct x, y; try done; by destruct (last l).
Qed.

Lemma scanned_cons w (d n : nat) :
  (d < 8)%nat →
  scanned w d (S n) =
  (player_py w + ddy_ddd !!! d, player_px w + ddx_ddd !!! d)
    :: scanned w (S d) n.
Proof.
  intros Hd. unfold scanned.
  by replace (S n `min` (8 - d))%nat with (S (n `min` (8 - S d))) by lia.
Qed.

Lemma scanned_nil w (d n : nat) :
  (n = 0 ∨ d = 8)%nat → scanned w d n = [].
Proof.
  intros Hz. unfold scanned.
  by replace (n `min` (8 - d))%nat with 0%nat by lia.
Qed.

#[local] Arguments scanned : simpl never.

Lemma count_feats_loop_spec w test (n : nat) :
  ∀ (d : nat) cnt y x, (d + n ≤ 9)%nat →
    count_feats_loop n d w test false cnt y x =
    (cnt + Z.of_nat (length (filter (counted w test) (scanned w d n))),
     (recorded y x (filter (counted w test) (scanned w d n))).1,
     (recorded y x (filter (counted w test) (scanned w d n))).2).
Proof.
  induction n as [|n IH]; intros d cnt y x Hd.
  - rewrite scanned_nil by lia. unfold recorded. simpl.
    rewrite Z.add_0_r. by destruct x, y.
  - simpl. destruct (Nat.eqb_spec d 8) as [->|Hne]; simpl.
    + rewrite IH by lia. by rewrite !scanned_nil by lia.
    + rewrite scanned_cons by lia.
      set (yy := player_py w + ddy_ddd !!! d).
      set (xx := player_px w + ddx_ddd !!! d).
      rewrite filter_cons.
      destruct (decide (counted w test (yy, xx))) as [(Hin & Hknown & Htest)|Hnot].
      * simpl in Hin, Hknown, Htest. rewrite Hin, Hknown, Htest. simpl.
        rewrite recorded_cons.
        destruct x, y; rewrite IH by lia; do 2 f_equal; cbn [length]; lia.
      * unfold counted in Hnot. simpl in Hnot.
        destruct (square_in_bounds_fully w (cave w) yy xx); simpl; [|by apply IH; lia].
        destruct (square_isknown w (cave w) yy xx); simpl; [|by apply IH; lia].
        destruct (test w (cave w) yy xx); simpl; [|by apply IH; lia].
        by destruct Hnot.
Qed.

Lemma scanned_neighbours w :
  scanned w 0 9 = neighbours (player_py w) (player_px w).
Proof. unfold scanned, neighbours. simpl. repeat f_equal; lia. Qed.

(** C9.  With [under] false, [count_feats] returns the number of cells
    among the eight around the character that are fully in bounds, known
    and pass the test, which is at most 8; when neither out-parameter is
    null and some cell was counted, they hold the cell counted last, and
    otherwise they are left as they were. *)
Theorem count_feats_exact w test y x :
  let around := neighbours (player_py w) (player_px w) in
  let hits := filter (counted w test) around in
  count_feats w y x test false =
    (Z.of_nat (length hits), (recorded y x hits).1, (recorded y x hits).2) ∧
  (length hits ≤ 8)%nat ∧
  NoDup around ∧ length around = 8%nat ∧
  ∀ yy xx, (yy, xx) ∈ around ↔
    -1 ≤ yy - player_py w ≤ 1 ∧ -1 ≤ xx - player_px w ≤ 1 ∧
    (yy, xx) ≠ (player_py w, player_px w).
Proof.
  intros around hits. split_and!.
  - unfold count_feats. rewrite count_feats_loop_spec by lia.
    by rewrite scanned_neighbours.
  - etrans; [apply length_filter|]. done.
  - unfold around, neighbours.
    repeat (apply NoDup_cons; split;
      [rewrite ?elem_of_cons, elem_of_nil; intros Hin;
       repeat (destruct Hin as [Hin|Hin]); try done;
       injection Hin; lia|]).
    apply NoDup_nil_2.
  - done.
  - intros yy xx. unfold around, neighbours.
    rewrite !elem_of_cons, elem_of_nil. split.
    + intros Hin. repeat (destruct Hin as [Hin|Hin]); try done;
        injection Hin as ? ?; subst yy xx; (split_and!; [lia..|]);
        intros Heq; injection Heq; lia.
    + intros (Hy & Hx & Hne).
      assert (yy = player_py w - 1 ∨ yy = player_py w ∨ yy = player_py w + 1)
        as Hyy by lia.
      assert (xx = player_px w - 1 ∨ xx = player_px w ∨ xx = player_px w + 1)
        as Hxx by lia.
      destruct Hyy as [Hyy|[Hyy|Hyy]], Hxx as [Hxx|[Hxx|Hxx]]; subst yy xx;
        try done; repeat first [by left | right].
Qed.

End GeometryClaims.

(** C10.  Entry [i] of [ddx_ddd] and of [ddy_ddd] is the entry of [ddx]
    and of [ddy] for the direction [ddd[i]], for each of the nine indices;
    the last index, 8, is direction 5, whose offsets are both zero. *)
Theorem direction_tables_consistent (i : nat) :
  (i < 9)%nat →
  ∃ dir dx dy, ddd !! i = Some dir ∧ 1 ≤ dir ≤ 9 ∧
    ddx_ddd !! i = Some dx ∧ ddx !! Z.to_nat dir = Some dx ∧
    ddy_ddd !! i = Some dy ∧ ddy !! Z.to_nat dir = Some dy ∧
    (i = 8%nat → dir = 5 ∧ dx = 0 ∧ dy = 0).
Proof.
  intros Hi.
  do 9 (destruct i as [|i];
        [eexists _, _, _; simpl; split_and!; try reflexivity; try lia; try done|]).
  lia.
Qed.

(** * The claims on the sample states *)

Lemma ex_play_ok : lists_ok ex_play 1%positive ex_chunk.
Proof.
  split; [reflexivity|]. split.
  - split; [done|]. split; reflexivity.
  - intros _. exists 2%positive, ex_known. split; [reflexivity|].
    split; [done|]. split; [reflexivity|]. split; [|reflexivity].
    split; [done|]. split; reflexivity.
Qed.

Lemma ex_play_full (j : Z) (o : addr) :
  1 ≤ j < 7 → (16 ≤ o)%positive →
  objects ex_chunk !! Z.to_nat j ≠ Some (Some o) ∧
  ¬ free_slot ex_play 1%positive ex_chunk j.
Proof.
  intros Hj Ho.
  assert (j = 1 ∨ j = 2 ∨ j = 3 ∨ j = 4 ∨ j = 5 ∨ j = 6)
    as [->|[->|[->|[->|[->| ->]]]]] by lia;
    (split; [simpl; intros [= <-]; lia|by intros (_ & ? & _)]).
Qed.

Lemma ex_closet_rejects y x d need_los ny nx :
  @accepted ex_oracles ex_play (Some 3%positive) y x d need_los ny nx = false.
Proof.
  unfold accepted.
  change (square_in_bounds_fully ex_play (Some 3%positive) ny nx)
    with ((0 <? nx) && (nx <? 1) && (0 <? ny) && (ny <? 1)).
  destruct (Z.ltb_spec 0 nx), (Z.ltb_spec nx 1); simpl; try done; lia.
Qed.

Lemma list_object_first_free_slot_witness :
  (∃ i w' ch',
     @list_object ex_layout ex_play 1%positive (Some 16%positive) = Ok w' ∧
     first_free_slot ex_play 1%positive ex_chunk i ∧
     chunks w' !! 1%positive = Some ch' ∧
     objs w' !! 16%positive = Some (Object i) ∧
     objects ch' !! Z.to_nat i = Some (Some 16%positive) ∧ i ≠ 0) ∧
  (let c := (@cave_new ex_layout ex_idle 10 10).1 in
   ∃ w1 w2 w3 w4 w5 ch3 ch5 i,
     @list_object ex_layout (@cave_new ex_layout ex_idle 10 10).2 c
       (Some 10%positive) = Ok w1 ∧
     @list_object ex_layout w1 c (Some 11%positive) = Ok w2 ∧
     @list_object ex_layout w2 c (Some 12%positive) = Ok w3 ∧
     delist_object w3 c 11%positive = Ok w4 ∧
     @list_object ex_layout w4 c (Some 13%positive) = Ok w5 ∧
     objs w3 !! 11%positive = Some (Object i) ∧
     objs w5 !! 13%positive = Some (Object i) ∧
     chunks w3 !! c = Some ch3 ∧ chunks w5 !! c = Some ch5 ∧
     objects ch5 !! Z.to_nat i = Some (Some 13%positive) ∧
     obj_max ch5 = obj_max ch3 ∧
     length (objects ch5) = length (objects ch3)).
Proof.
  destruct (@list_object_first_free_slot ex_layout) as [Hgen Hscen];
    [reflexivity|reflexivity|].
  split.
  - apply Hgen; [apply ex_play_ok|by eexists|].
    apply (bool_decide_unpack _). vm_compute. reflexivity.
  - apply (Hscen ex_idle 10 10 10%positive 11%positive 12%positive 13%positive).
    + discriminate.
    + apply (bool_decide_unpack _). vm_compute. reflexivity.
    + repeat constructor; by eexists.
Defined.

Lemma delist_object_blocked_witness :
  delist_object ex_play 1%positive 10%positive = Ok ex_play.
Proof.
  apply (delist_object_blocked ex_play 1%positive ex_chunk 10%positive (Object 5));
    [reflexivity|reflexivity|reflexivity|reflexivity|].
  split; [reflexivity|].
  exists 2%positive, ex_known, 20%positive. split; [reflexivity|].
  split; reflexivity.
Defined.

Lemma list_object_grows_known_witness :
  (∃ w' ch',
     @list_object ex_layout ex_play 1%positive (Some 16%positive) = Ok w' ∧
     chunks w' !! 1%positive = Some ch' ∧ obj_max ex_chunk < obj_max ch') ∧
  (∀ w' ch',
     @list_object ex_layout ex_play 1%positive (Some 16%positive) = Ok w' →
     chunks w' !! 1%positive = Some ch' → obj_max ex_chunk < obj_max ch' →
     ∃ k', chunks w' !! 2%positive = Some k' ∧ obj_max ch' ≤ obj_max k' ∧
       length (objects ch') = Z.to_nat (obj_max ch' + 1) ∧
       length (objects k') = Z.to_nat (obj_max k' + 1) ∧
       ∀ j : nat,
         (objects ex_chunk !! j = None → (j < length (objects ch'))%nat →
          objects ch' !! j = Some None) ∧
         (objects ex_known !! j = None → (j < length (objects k'))%nat →
          objects k' !! j = Some None)).
Proof.
  destruct (@list_object_grows_known ex_layout ex_play 1%positive ex_chunk
              2%positive ex_known 16%positive) as [Hgrow Hslots];
    [apply ex_play_ok|reflexivity|reflexivity|reflexivity|by eexists
    |reflexivity|].
  split; [|exact Hslots].
  apply Hgrow. intros j Hj. by apply ex_play_full.
Defined.

Lemma delist_object_spec_witness :
  delist_object ex_play 1%positive 16%positive = Ok ex_play ∧
  (∃ w' ch', delist_object ex_play 1%positive 11%positive = Ok w' ∧
     objs w' !! 11%positive = Some (Object 0) ∧
     chunks w' !! 1%positive = Some ch' ∧
     objects ch' !! 1%nat = Some None) ∧
  delist_object ex_play 1%positive 17%positive = Abort.
Proof.
  split; [|split].
  - destruct (delist_object_spec ex_play 1%positive 16%positive (Object 0))
      as (Hunlisted & _ & _); [reflexivity|].
    apply Hunlisted. reflexivity.
  - destruct (delist_object_spec ex_play 1%positive 11%positive (Object 1))
      as (_ & Hcleared & _); [reflexivity|].
    apply (Hcleared ex_chunk); [apply ex_play_ok|reflexivity|reflexivity|].
    intros (_ & kp & k & o & Hp & Hk & Ho).
    injection Hp as <-. injection Hk as <-. discriminate Ho.
  - destruct (delist_object_spec ex_play 1%positive 17%positive (Object 2))
      as (_ & _ & Hmismatch); [reflexivity|].
    apply (Hmismatch ex_chunk (Some 12%positive));
      [reflexivity|reflexivity|reflexivity|discriminate].
Defined.

Lemma list_object_idempotent_witness :
  ∃ w', @list_object ex_layout ex_play 1%positive (Some 16%positive) = Ok w' ∧
        @list_object ex_layout w' 1%positive (Some 16%positive) = Ok w'.
Proof.
  apply (@list_object_idempotent ex_layout ex_play 1%positive ex_chunk);
    [apply ex_play_ok| |reflexivity].
  intros o Ho. injection Ho as <-. by eexists.
Defined.

Lemma cave_new_fields_witness :
  chunks ex_idle !! (@cave_new ex_layout ex_idle 10 10).1 = None ∧
  ∃ ch,
    chunks (@cave_new ex_layout ex_idle 10 10).2
      !! (@cave_new ex_layout ex_idle 10 10).1 = Some ch ∧
    height ch = 10 ∧ width ch = 10 ∧ mon_max ch = 1 ∧ mon_cnt ch = 0 ∧
    created_at ch = 42 ∧
    Z.of_nat (length (squares ch)) = 10 ∧
    Forall (λ row, Z.of_nat (length row) = 10) (squares ch) ∧
    objects ch = replicate 8 None ∧
    obj_max ch = 7.
Proof. apply (@cave_new_fields ex_layout ex_idle 10 10); reflexivity. Defined.

(** C6, as claimed, fails on a 10 by 10 chunk: the index is created with
    [OBJECT_LIST_SIZE] slots, and [obj_max] is one less. *)
Lemma cave_new_obj_max_not_capacity :
  ¬ ∃ ch,
      chunks (@cave_new ex_layout ex_idle 10 10).2
        !! (@cave_new ex_layout ex_idle 10 10).1 = Some ch ∧
      height ch = 10 ∧ width ch = 10 ∧ mon_max ch = 1 ∧ mon_cnt ch = 0 ∧
      created_at ch = turn ex_idle ∧
      obj_max ch = Z.of_nat (length (objects ch)).
Proof.
  intros (ch & Hc & _ & _ & _ & _ & _ & Hmax).
  vm_compute in Hc. injection Hc as <-. discriminate Hmax.
Qed.

Lemma scatter_terminates_witness :
  ∃ st,
    @scatter_loop ex_oracles (Z.to_nat 1000001) ex_play (Some 3%positive)
      0 0 1 false (ScatterState 0 0 0 (7 : @rng ex_oracles)) = Some st ∧
    @scatter ex_oracles (Z.to_nat 1000001) ex_play (Some 3%positive)
      0 0 1 false 7 0 0 = Some (ny st, nx st, gen st) ∧
    tries st = 1000000 ∧
    (ny st, nx st) = @nth_pick ex_oracles (Z.to_nat 999999) 7 0 0 1.
Proof.
  destruct (@scatter_terminates ex_oracles ex_play (Some 3%positive) 0 0 1
              false 7 0 0 (Z.to_nat 1000001))
    as (st & Hloop & Hrun & _ & _ & _ & Hall); [lia|].
  exists st. split; [exact Hloop|]. split; [exact Hrun|].
  apply Hall. intros k _. apply ex_closet_rejects.
Defined.

Lemma scatter_accepted_witness :
  ∃ yp xp g' (j : nat),
    @scatter ex_oracles (Z.to_nat 1000001) ex_play (Some 1%positive)
      5 5 1 true 7 0 0 = Some (yp, xp, g') ∧
    @square_in_bounds_fully ex_oracles ex_play (Some 1%positive) yp xp = true ∧
    (1 < 1 → @distance ex_oracles 5 5 yp xp ≤ 1) ∧
    (true = true → @los ex_oracles ex_play (Some 1%positive) 5 5 yp xp = true) ∧
    (j ≤ 0)%nat ∧ (yp, xp) = @nth_pick ex_oracles j 7 5 5 1 ∧
    ∀ i : nat, (i < j)%nat →
      @accepted ex_oracles ex_play (Some 1%positive) 5 5 1 true
        (@nth_pick ex_oracles i 7 5 5 1).1 (@nth_pick ex_oracles i 7 5 5 1).2
      = false.
Proof.
  apply (@scatter_accepted ex_oracles ex_play (Some 1%positive) 5 5 1 true
           7 0 0 (Z.to_nat 1000001) 0%nat); [lia|reflexivity|reflexivity].
Defined.

Lemma direction_tables_consistent_witness :
  ∃ dir dx dy, ddd !! 8%nat = Some dir ∧ 1 ≤ dir ≤ 9 ∧
    ddx_ddd !! 8%nat = Some dx ∧ ddx !! Z.to_nat dir = Some dx ∧
    ddy_ddd !! 8%nat = Some dy ∧ ddy !! Z.to_nat dir = Some dy ∧
    (8%nat = 8%nat → dir = 5 ∧ dx = 0 ∧ dy = 0).
Proof. apply (direction_tables_consistent 8). lia. Defined.

(** * Further properties of the code *)

(** ** Terrain lookup *)

Lemma lookup_feat_loop_spec (n : nat) i f_info name :
  0 ≤ i → (Z.to_nat i + n ≤ length f_info)%nat →
  match lookup_feat_loop n i f_info name with
  | Ok j => i ≤ j < i + Z.of_nat n ∧ feat_name f_info j = Some name ∧
            ∀ k, i ≤ k < j → feat_name f_info k ≠ Some name
  | Abort => ∀ k, i ≤ k < i + Z.of_nat n → feat_name f_info k ≠ Some name
  | Undefined => False
  end.
Proof.
  revert i. induction n as [|n IH]; intros i Hi Hlen; simpl.
  - intros k ?. lia.
  - destruct (lookup_lt_is_Some_2 f_info (Z.to_nat i)) as [feat Hfeat]; [lia|].
    rewrite (array_get_Ok _ _ feat) by done. simpl.
    assert (Hname : feat_name f_info i = fname feat).
    { unfold feat_name. rewrite decide_True by done. by rewrite Hfeat. }
    assert (Hrest : feat_name f_info i ≠ Some name →
      match lookup_feat_loop n (i + 1) f_info name with
      | Ok j => i ≤ j < i + Z.of_nat (S n) ∧ feat_name f_info j = Some name ∧
                ∀ k, i ≤ k < j → feat_name f_info k ≠ Some name
      | Abort => ∀ k, i ≤ k < i + Z.of_nat (S n) → feat_name f_info k ≠ Some name
      | Undefined => False
      end).
    { intros Hne. specialize (IH (i + 1)).
      destruct (lookup_feat_loop n (i + 1) f_info name) as [j| |].
      - destruct IH as (Hj & Hfound & Hfirst); [lia..|].
        split; [lia|]. split; [done|]. intros k Hk.
        destruct (decide (k = i)) as [->|]; [done|]. apply Hfirst. lia.
      - intros k Hk. destruct (decide (k = i)) as [->|]; [done|].
        apply IH; lia.
      - apply IH; lia. }
    destruct (fname feat) as [s|] eqn:Hs.
    + destruct (decide (name = s)) as [->|Hne].
      * split; [lia|]. split; [done|]. intros k ?. lia.
      * apply Hrest. rewrite Hname. congruence.
    + apply Hrest. by rewrite Hname.
Qed.

(** X1.  On a table that has its [f_max] entries, [lookup_feat] never
    reads outside the table; it returns [j] exactly when [j] is the least
    index below [f_max] of a feature with that name, and ends the process
    exactly when no feature below [f_max] has the name (features without
    a name are passed over). *)
Theorem lookup_feat_first_match w f_info name :
  0 ≤ f_max w → (Z.to_nat (f_max w) ≤ length f_info)%nat →
  lookup_feat w f_info name ≠ Undefined ∧
  (∀ j, lookup_feat w f_info name = Ok j ↔
        0 ≤ j < f_max w ∧ feat_name f_info j = Some name ∧
        ∀ k, 0 ≤ k < j → feat_name f_info k ≠ Some name) ∧
  (lookup_feat w f_info name = Abort ↔
   ∀ k, 0 ≤ k < f_max w → feat_name f_info k ≠ Some name).
Proof.
  intros Hmax Hlen. unfold lookup_feat.
  pose proof (lookup_feat_loop_spec (Z.to_nat (f_max w)) 0 f_info name
                ltac:(lia) ltac:(lia)) as Hspec.
  destruct (lookup_feat_loop (Z.to_nat (f_max w)) 0 f_info name) as [j| |].
  - destruct Hspec as (Hj & Hfound & Hfirst). split; [done|]. split.
    + intros j'. split.
      * intros [= <-]. split; [lia|]. done.
      * intros (Hj' & Hfound' & Hfirst'). f_equal.
        destruct (Z.lt_trichotomy j j') as [Hlt|[Heq|Hgt]]; [|done|].
        -- destruct (Hfirst' j); [lia|done].
        -- destruct (Hfirst j'); [lia|done].
    + split; [done|]. intros Hnone. destruct (Hnone j); [lia|done].
  - split; [done|]. split.
    + intros j. split; [done|]. intros (Hj & Hfound & _).
      destruct (Hspec j); [lia|done].
    + split; [|done]. intros _ k Hk. apply Hspec; lia.
  - done.
Qed.

(** X2.  On a table in which no two of the first [f_max] features share
    a name, looking up the name of feature [i] gives back [i]. *)
Theorem lookup_feat_round_trip w f_info i name :
  (Z.to_nat (f_max w) ≤ length f_info)%nat →
  (∀ j k s, 0 ≤ j < f_max w → 0 ≤ k < f_max w →
     feat_name f_info j = Some s → feat_name f_info k = Some s → j = k) →
  0 ≤ i < f_max w → feat_name f_info i = Some name →
  lookup_feat w f_info name = Ok i.
Proof.
  intros Hlen Hdistinct Hi Hname. unfold lookup_feat.
  pose proof (lookup_feat_loop_spec (Z.to_nat (f_max w)) 0 f_info name
                ltac:(lia) ltac:(lia)) as Hspec.
  destruct (lookup_feat_loop (Z.to_nat (f_max w)) 0 f_info name) as [j| |].
  - destruct Hspec as (Hj & Hfound & _).
    f_equal. apply (Hdistinct j i name); (done || lia).
  - destruct (Hspec i); [lia|done].
  - done.
Qed.

Lemma lookup_feat_cases w f_info name :
  0 ≤ f_max w → (Z.to_nat (f_max w) ≤ length f_info)%nat →
  (∃ j, lookup_feat w f_info name = Ok j ∧ 0 ≤ j < f_max w ∧
        feat_name f_info j = Some name) ∨
  (lookup_feat w f_info name = Abort ∧
   ∀ k, 0 ≤ k < f_max w → feat_name f_info k ≠ Some name).
Proof.
  intros Hmax Hlen. unfold lookup_feat.
  pose proof (lookup_feat_loop_spec (Z.to_nat (f_max w)) 0 f_info name
                ltac:(lia) ltac:(lia)) as Hspec.
  destruct (lookup_feat_loop (Z.to_nat (f_max w)) 0 f_info name) as [j| |].
  - left. exists j. destruct Hspec as (Hj & Hfound & _).
    split; [done|]. split; [lia|done].
  - right. split; [done|]. intros k Hk. apply Hspec. lia.
  - done.
Qed.

Lemma NoDup_Forall2_functional {A B : Type} (R : A → B → Prop) l k :
  (∀ a b b', R a b → R a b' → b = b') →
  Forall2 R l k → NoDup k → NoDup l.
Proof.
  intros Hfun Hall. induction Hall as [|a b l k Hab Hall IH]; intros Hnd.
  - apply NoDup_nil_2.
  - apply NoDup_cons in Hnd as [Hnotin Hnd]. apply NoDup_cons.
    split; [|by apply IH]. intros Hin.
    apply list_elem_of_lookup in Hin as [i Hi].
    destruct (Forall2_lookup_l _ _ _ _ _ Hall Hi) as (b' & Hb' & Hab').
    apply Hnotin. rewrite (Hfun a b b' Hab Hab').
    by eapply list_elem_of_lookup_2.
Qed.

Lemma terrain_names_NoDup : NoDup terrain_names.
Proof. apply (bool_decide_unpack _). vm_compute. reflexivity. Qed.

(** The leading call of [set_terrain] that is left, decided. *)
Ltac terrain_lookup Hcases :=
  lazymatch goal with
  | |- mbind _ (lookup_feat _ _ ?n) = _ =>
      destruct (Hcases n) as [(?j & -> & ? & ?)|[-> Hmiss]]; simpl
  end.

(** X3.  On a table that has its [f_max] entries: when each of the
    seventeen terrain names is the name of a feature below [f_max],
    [set_terrain] returns, every constant is the index below [f_max] of a
    feature that bears the constant's name, and the seventeen constants
    are pairwise different; when one of the names is missing,
    [set_terrain] ends the process. *)
Theorem set_terrain_spec w f_info :
  0 ≤ f_max w → (Z.to_nat (f_max w) ≤ length f_info)%nat →
  ((∀ n, n ∈ terrain_names →
      ∃ k, 0 ≤ k < f_max w ∧ feat_name f_info k = Some n) →
   ∃ t, set_terrain w f_info = Ok t ∧
     Forall2 (λ v n, 0 ≤ v < f_max w ∧ feat_name f_info v = Some n)
       (terrain_values t) terrain_names ∧
     NoDup (terrain_values t)) ∧
  ((∃ n, n ∈ terrain_names ∧
      ∀ k, 0 ≤ k < f_max w → feat_name f_info k ≠ Some n) →
   set_terrain w f_info = Abort).
Proof.
  intros Hmax Hlen.
  pose proof (λ n, lookup_feat_cases w f_info n Hmax Hlen) as Hcases.
  split.
  - intros Hall.
    assert (Hnames : ∃ t, set_terrain w f_info = Ok t ∧
      Forall2 (λ v n, 0 ≤ v < f_max w ∧ feat_name f_info v = Some n)
        (terrain_values t) terrain_names).
    { assert (Hfind : ∀ n, n ∈ terrain_names →
        ∃ j, lookup_feat w f_info n = Ok j ∧ 0 ≤ j < f_max w ∧
             feat_name f_info j = Some n).
      { intros n Hn. destruct (Hcases n) as [?|[_ Hmiss]]; [done|].
        destruct (Hall n Hn) as (k & ? & ?). by destruct (Hmiss k). }
      unfold set_terrain.
      repeat match goal with
             | |- context [lookup_feat _ _ ?n] =>
                 destruct (Hfind n) as (?j & -> & ? & ?);
                 [apply (bool_decide_unpack _); vm_compute; reflexivity|]
             end.
      simpl. eexists. split; [reflexivity|].
      unfold terrain_values, terrain_names. simpl.
      repeat (constructor; [by split|]). constructor. }
    destruct Hnames as (t & Hrun & Hvalues). exists t.
    split; [done|]. split; [done|].
    eapply NoDup_Forall2_functional; [|exact Hvalues|apply terrain_names_NoDup].
    intros v n n' [_ Hn] [_ Hn']. congruence.
  - intros (n & Hn & Hmissing). unfold set_terrain.
    do 17 (terrain_lookup Hcases; [|reflexivity]).
    exfalso. unfold terrain_names in Hn. rewrite !elem_of_cons in Hn.
    rewrite elem_of_nil in Hn.
    repeat (destruct Hn as [->|Hn];
            [match goal with
             | H : feat_name f_info ?j = Some ?m |- _ =>
                 by apply (Hmissing j)
             end|]).
    done.
Qed.

(** ** Freeing a chunk *)



Section Lifecycle.
Context `{!Layout}.


(** X5.  [cave_new] touches nothing that exists: the chunks already in
    the store, the objects and the globals are as before, and the new
    address is none of the old ones; two chunks created one after the
    other have different addresses and are both in the store. *)
Theorem cave_new_frame w h wd h2 wd2 :
  let c := (cave_new w h wd).1 in
  let w1 := (cave_new w h wd).2 in
  let c2 := (cave_new w1 h2 wd2).1 in
  let w2 := (cave_new w1 h2 wd2).2 in
  (∀ p ch, chunks w !! p = Some ch → p ≠ c ∧ chunks w1 !! p = Some ch) ∧
  objs w1 = objs w ∧ cave w1 = cave w ∧ player_cave w1 = player_cave w ∧
  turn w1 = turn w ∧
  c2 ≠ c ∧ is_Some (chunks w2 !! c) ∧ is_Some (chunks w2 !! c2) ∧
  chunks w2 !! c = chunks w1 !! c.
Proof.
  intros c w1 c2 w2.
  assert (Hfresh : chunks w !! c = None) by apply not_elem_of_dom, is_fresh.
  assert (Hfresh2 : chunks w1 !! c2 = None) by apply not_elem_of_dom, is_fresh.
  assert (Hc : is_Some (chunks w1 !! c)).
  { unfold w1, c, cave_new. simpl. rewrite lookup_insert_eq. by eexists. }
  assert (Hne : c2 ≠ c).
  { intros Heq. rewrite Heq in Hfresh2. rewrite Hfresh2 in Hc. by destruct Hc. }
  split_and!; try done.
  - intros p ch Hp. assert (p ≠ c) by congruence. split; [done|].
    unfold w1, cave_new. simpl. by rewrite lookup_insert_ne.
  - unfold w2, cave_new. simpl. by rewrite lookup_insert_ne.
  - unfold w2, c2, cave_new. simpl. rewrite lookup_insert_eq. by eexists.
  - unfold w2, cave_new. simpl. by rewrite lookup_insert_ne.
Qed.


End Lifecycle.

(** ** Counting with and without the character's cell *)

Section AdjacentCells.
Context `{!Oracles}.

#[local] Arguments scanned_under : simpl never.

Lemma count_feats_loop_under w test (n : nat) :
  ∀ (d : nat) cnt y x, (d + n ≤ 9)%nat →
    count_feats_loop n d w test true cnt y x =
    (cnt + Z.of_nat (length (filter (counted w test) (scanned_under w d n))),
     (recorded y x (filter (counted w test) (scanned_under w d n))).1,
     (recorded y x (filter (counted w test) (scanned_under w d n))).2).
Proof.
  induction n as [|n IH]; intros d cnt y x Hd.
  - unfold scanned_under, recorded. simpl. rewrite Z.add_0_r. by destruct x, y.
  - simpl. rewrite andb_false_r.
    change (scanned_under w d (S n))
      with ((player_py w + ddy_ddd !!! d, player_px w + ddx_ddd !!! d)
              :: scanned_under w (S d) n).
    set (yy := player_py w + ddy_ddd !!! d).
    set (xx := player_px w + ddx_ddd !!! d).
    rewrite filter_cons.
    destruct (decide (counted w test (yy, xx))) as [(Hin & Hknown & Htest)|Hnot].
    + simpl in Hin, Hknown, Htest. rewrite Hin, Hknown, Htest. simpl.
      rewrite recorded_cons.
      destruct x, y; rewrite IH by lia; do 2 f_equal; cbn [length]; lia.
    + unfold counted in Hnot. simpl in Hnot.
      destruct (square_in_bounds_fully w (cave w) yy xx); simpl; [|by apply IH; lia].
      destruct (square_isknown w (cave w) yy xx); simpl; [|by apply IH; lia].
      destruct (test w (cave w) yy xx); simpl; [|by apply IH; lia].
      by destruct Hnot.
Qed.

Lemma count_feats_cells w test y x under :
  count_feats w y x test under =
  (Z.of_nat (length (filter (counted w test) (scanned_cells w under))),
   (recorded y x (filter (counted w test) (scanned_cells w under))).1,
   (recorded y x (filter (counted w test) (scanned_cells w under))).2).
Proof.
  unfold count_feats, scanned_cells. destruct under.
  - rewrite count_feats_loop_under by lia.
    replace (scanned_under w 0 9)
      with (neighbours (player_py w) (player_px w)
              ++ [(player_py w, player_px w)]); [done|].
    unfold neighbours, scanned_under. simpl. repeat f_equal; lia.
  - rewrite count_feats_loop_spec by lia.
    by rewrite scanned_neighbours, app_nil_r.
Qed.

(** X7.  With [under] set, [count_feats] counts among nine cells, the
    eight around the character and the character's own, which comes
    last: the result is at most 9, and it is the result without [under]
    plus one when the character's cell is in bounds, known and passes the
    test. *)
Theorem count_feats_under w test y x :
  let own := (player_py w, player_px w) in
  let hits := filter (counted w test) (neighbours (player_py w) (player_px w) ++ [own]) in
  count_feats w y x test true =
    (Z.of_nat (length hits), (recorded y x hits).1, (recorded y x hits).2) ∧
  (length hits ≤ 9)%nat ∧
  (count_feats w y x test true).1.1 =
    (count_feats w y x test false).1.1
    + (if decide (counted w test own) then 1 else 0).
Proof.
  intros own hits. split_and!.
  - by rewrite count_feats_cells.
  - etrans; [apply length_filter|]. done.
  - rewrite !count_feats_cells. unfold scanned_cells. cbn [fst].
    rewrite app_nil_r, filter_app, length_app, filter_cons, filter_nil.
    fold own. destruct (decide (counted w test own)); simpl; lia.
Qed.

(** X8.  The out-parameters of [count_feats], for either value of
    [under]: when one of the two pointers is null nothing is written;
    the count does not depend on the pointers; when both are given and
    the count is positive they hold a counted cell at most one step from
    the character in each direction; when the count is zero they are
    left as they were. *)
Theorem count_feats_out_parameters w test y x under :
  let r := count_feats w y x test under in
  ((y = None ∨ x = None) → r.1.2 = y ∧ r.2 = x) ∧
  r.1.1 = (count_feats w None None test under).1.1 ∧
  (r.1.1 = 0 → r.1.2 = y ∧ r.2 = x) ∧
  (is_Some y → is_Some x → 0 < r.1.1 →
   ∃ yy xx, r.1.2 = Some yy ∧ r.2 = Some xx ∧ counted w test (yy, xx) ∧
     -1 ≤ yy - player_py w ≤ 1 ∧ -1 ≤ xx - player_px w ≤ 1 ∧
     (under = false → (yy, xx) ≠ (player_py w, player_px w))).
Proof.
  intros r. unfold r. rewrite !count_feats_cells. cbn [fst snd].
  set (hits := filter (counted w test) (scanned_cells w under)).
  split_and!.
  - unfold recorded. intros [-> | ->]; [by destruct x|by destruct y].
  - done.
  - intros Hzero. assert (hits = []) as -> by (destruct hits; [done|simpl in Hzero; lia]).
    unfold recorded. by destruct x, y.
  - intros [y0 ->] [x0 ->] Hpos. unfold recorded.
    destruct (last hits) as [[yy xx]|] eqn:Hlast.
    + exists yy, xx. split; [done|]. split; [done|].
      apply last_Some_elem_of in Hlast.
      apply list_elem_of_filter in Hlast as [Hcounted Hin].
      split; [done|]. unfold scanned_cells, neighbours in Hin.
      rewrite elem_of_app, !elem_of_cons, elem_of_nil in Hin.
      destruct Hin as [Hin|Hin].
      * repeat (destruct Hin as [Hin|Hin]); try done;
          injection Hin as ? ?; subst yy xx; split_and!; try lia;
          intros _ Heq; injection Heq; lia.
      * destruct under; [|by apply elem_of_nil in Hin].
        apply list_elem_of_singleton in Hin. injection Hin as ? ?; subst yy xx.
        split_and!; (lia || done).
    + apply last_None in Hlast. rewrite Hlast in Hpos. simpl in Hpos. lia.
Qed.

End AdjacentCells.

(** ** More on the object list *)

(** A call of [delist_object] that returns either changed nothing or
    emptied the object's slot and zeroed its [oidx]. *)
Lemma delist_object_inv w c o w' :
  delist_object w c o = Ok w' →
  w' = w ∨
  ∃ ob ch, objs w !! o = Some ob ∧ 0 < oidx ob ∧ chunks w !! c = Some ch ∧
    objects ch !! Z.to_nat (oidx ob) = Some (Some o) ∧
    known_object_at w c (oidx ob) = Ok false ∧
    w' = World (<[c := set_objects ch (<[Z.to_nat (oidx ob) := None]> (objects ch))]>
                  (chunks w))
               (<[o := Object 0]> (objs w)) (cave w) (player_cave w)
               (player_py w) (player_px w) (turn w) (f_max w)
               (level_monster_max w).
Proof.
  unfold delist_object, deref. intros Hrun.
  destruct (objs w !! o) as [ob|] eqn:Hob; [|done]. simpl in Hrun.
  destruct (decide (oidx ob = 0)); [left; congruence|].
  destruct (chunks w !! c) as [ch|] eqn:Hc; [|done]. simpl in Hrun.
  destruct (array_get (objects ch) (oidx ob)) as [s| |] eqn:Hget; [|done..].
  simpl in Hrun. destruct (decide (s = Some o)) as [->|]; [|done].
  apply array_get_inv in Hget as [Hpos Hs].
  destruct (known_object_at w c (oidx ob)) as [[|]| |] eqn:Hknown;
    simpl in Hrun; [left; congruence| |done..].
  unfold array_set in Hrun.
  destruct (decide _) as [_|]; [|done]. simpl in Hrun.
  unfold store_oidx, deref in Hrun. simpl in Hrun. rewrite Hob in Hrun.
  simpl in Hrun. right. exists ob, ch. split; [done|]. split; [lia|].
  split; [done|]. split; [done|]. split; [done|]. congruence.
Qed.

Lemma delist_object_others w c o w' :
  delist_object w c o = Ok w' →
  (∀ p, p ≠ c → chunks w' !! p = chunks w !! p) ∧
  player_cave w' = player_cave w.
Proof.
  intros Hrun. destruct (delist_object_inv w c o w' Hrun)
    as [->|(ob & ch & _ & _ & _ & _ & _ & ->)]; [done|].
  split; [|done]. intros p Hp. simpl. by rewrite lookup_insert_ne.
Qed.

(** X9.  A call of [delist_object] that returns leaves a world on which
    the same call returns without any change: delisting twice is
    delisting once.  No assumption is made on the chunk or the object. *)
Theorem delist_object_idempotent w c o w' :
  delist_object w c o = Ok w' → delist_object w' c o = Ok w'.
Proof.
  intros Hrun. destruct (delist_object_inv w c o w' Hrun)
    as [->|(ob & ch & Hob & Hpos & Hc & Hs & _ & ->)]; [done|].
  unfold delist_object, deref. simpl. rewrite (lookup_insert_eq (objs w)).
  done.
Qed.

(** X10.  What a returning call of [delist_object] can change: in the
    chunk, only the slot that held the object, which becomes empty (the
    number of slots, [obj_max], the grid and every other field are kept);
    among the objects, only the [oidx] of the object; no other chunk, the
    known chunk included, and no global. *)
Theorem delist_object_frame w c o w' ch :
  delist_object w c o = Ok w' → chunks w !! c = Some ch →
  ∃ ch', chunks w' !! c = Some ch' ∧
    set_objects ch' (objects ch) = ch ∧
    length (objects ch') = length (objects ch) ∧
    (∀ j : nat, objects ch' !! j = objects ch !! j ∨
       (objects ch !! j = Some (Some o) ∧ objects ch' !! j = Some None)) ∧
    (∀ p, p ≠ c → chunks w' !! p = chunks w !! p) ∧
    (∀ o', o' ≠ o → objs w' !! o' = objs w !! o') ∧
    cave w' = cave w ∧ player_cave w' = player_cave w.
Proof.
  intros Hrun Hc. destruct (delist_object_inv w c o w' Hrun)
    as [->|(ob & ch0 & Hob & Hpos & Hc0 & Hs & _ & ->)].
  - exists ch. split; [done|]. split; [by destruct ch|]. split; [done|].
    split; [by left|]. done.
  - assert (ch0 = ch) as -> by congruence. eexists. simpl.
    split; [apply lookup_insert_eq|]. simpl.
    split; [by destruct ch|]. split; [by rewrite length_insert|].
    split_and!; try done.
    + intros j. destruct (decide (j = Z.to_nat (oidx ob))) as [->|Hne].
      * right. split; [done|]. apply list_lookup_insert_eq.
        by eapply lookup_lt_Some.
      * left. by rewrite list_lookup_insert_ne.
    + intros p Hp. by rewrite lookup_insert_ne.
    + intros o' Ho'. by rewrite lookup_insert_ne.
Qed.

Section ObjectListMore.
Context `{!Layout}.

(** Whatever [list_object] does, it changes [objects] and [obj_max] of
    chunks only, and the [oidx] of its object only. *)
Lemma list_object_fields w c ch o w' :
  list_object w c (Some o) = Ok w' → chunks w !! c = Some ch →
  (∃ ch', chunks w' !! c = Some ch' ∧
     set_obj_max (set_objects ch' (objects ch)) (obj_max ch) = ch) ∧
  (∀ p k, chunks w !! p = Some k →
     ∃ k', chunks w' !! p = Some k' ∧
       set_obj_max (set_objects k' (objects k)) (obj_max k) = k) ∧
  (∀ o', o' ≠ o → objs w' !! o' = objs w !! o') ∧
  cave w' = cave w ∧ player_cave w' = player_cave w ∧
  player_py w' = player_py w ∧ player_px w' = player_px w ∧
  turn w' = turn w.
Proof.
  intros Hrun Hc.
  assert (Hkeep : ∀ k : chunk,
            set_obj_max (set_objects k (objects k)) (obj_max k) = k)
    by (by intros []).
  assert (Hchunks :
    (∀ p k, chunks w !! p = Some k →
       ∃ k', chunks w' !! p = Some k' ∧
         set_obj_max (set_objects k' (objects k)) (obj_max k) = k) ∧
    (∀ o', o' ≠ o → objs w' !! o' = objs w !! o') ∧
    cave w' = cave w ∧ player_cave w' = player_cave w ∧
    player_py w' = player_py w ∧ player_px w' = player_px w ∧
    turn w' = turn w); [|split; [by apply Hchunks|done]].
  unfold list_object, deref in Hrun. rewrite Hc in Hrun. simpl in Hrun.
  destruct (scan_duplicate _ 1 (objects ch) o) as [[|]| |]; simpl in Hrun;
    [injection Hrun as <-; split; [by eauto|done]| |done..].
  destruct (find_hole _ 1 w c (objects ch)) as [[i|]| |]; simpl in Hrun;
    [| |done..].
  - destruct (array_set (objects ch) i (Some o)) as [a| |]; simpl in Hrun;
      [|done..].
    unfold store_oidx, deref in Hrun. simpl in Hrun.
    destruct (objs w !! o); simpl in Hrun; [|done]. injection Hrun as <-.
    simpl. split_and!; try done.
    + intros p k Hp. destruct (decide (p = c)) as [->|Hne].
      * rewrite lookup_insert_eq. eexists. split; [done|].
        assert (k = ch) as -> by congruence. by destruct ch.
      * rewrite lookup_insert_ne by done. by eauto.
    + intros o' Ho'. by rewrite lookup_insert_ne.
  - destruct (array_set _ (obj_max ch) (Some o)) as [a| |]; simpl in Hrun;
      [|done..].
    unfold store_oidx, deref in Hrun. simpl in Hrun.
    destruct (objs w !! o); simpl in Hrun; [|done].
    destruct (null_range _ (obj_max ch + 1) a) as [a'| |]; simpl in Hrun;
      [|done..].
    destruct (decide (cave w = Some c)) as [Hact|Hina].
    + destruct (player_cave w) as [kp|] eqn:Hp; [|done].
      destruct (decide (kp = c)) as [->|Hne].
      * rewrite lookup_insert_eq in Hrun. simpl in Hrun.
        destruct (null_range _ _ _) as [ka| |]; simpl in Hrun; [|done..].
        injection Hrun as <-. simpl. split_and!; try done.
        -- intros p k Hp'. destruct (decide (p = c)) as [->|Hne].
           ++ rewrite lookup_insert_eq. eexists. split; [done|].
              assert (k = ch) as -> by congruence. by destruct ch.
           ++ rewrite !lookup_insert_ne by done. by eauto.
        -- intros o' Ho'. by rewrite lookup_insert_ne.
      * rewrite lookup_insert_ne in Hrun by done.
        destruct (chunks w !! kp) as [k0|] eqn:Hk0; simpl in Hrun; [|done].
        destruct (null_range _ _ _) as [ka| |]; simpl in Hrun; [|done..].
        injection Hrun as <-. simpl. split_and!; try done.
        -- intros p k Hp'. destruct (decide (p = kp)) as [->|Hne'].
           ++ rewrite lookup_insert_eq. eexists. split; [done|].
              assert (k = k0) as -> by congruence. by destruct k0.
           ++ rewrite lookup_insert_ne by done.
              destruct (decide (p = c)) as [->|Hne''].
              ** rewrite lookup_insert_eq. eexists. split; [done|].
                 assert (k = ch) as -> by congruence. by destruct ch.
              ** rewrite lookup_insert_ne by done. by eauto.
        -- intros o' Ho'. by rewrite lookup_insert_ne.
    + injection Hrun as <-. simpl. split_and!; try done.
      * intros p k Hp'. destruct (decide (p = c)) as [->|Hne].
        -- rewrite lookup_insert_eq. eexists. split; [done|].
           assert (k = ch) as -> by congruence. by destruct ch.
        -- rewrite lookup_insert_ne by done. by eauto.
      * intros o' Ho'. by rewrite lookup_insert_ne.
Qed.

(** X11.  What a returning call of [list_object] on a well-formed chunk
    can change: the chunk differs from before in [objects] and [obj_max]
    only, the index never shrinks, no occupied slot is overwritten, a
    slot holds afterwards what it held before, the object, or nothing;
    the only other chunk that can change is the known chunk when the
    chunk is the active one; among the objects only the [oidx] of the
    object changes; the globals are kept. *)
Theorem list_object_frame w c ch o w' :
  lists_ok w c ch → is_Some (objs w !! o) → 0 < OBJECT_LIST_INCR →
  list_object w c (Some o) = Ok w' →
  ∃ ch', chunks w' !! c = Some ch' ∧
    set_obj_max (set_objects ch' (objects ch)) (obj_max ch) = ch ∧
    obj_max ch ≤ obj_max ch' ∧
    (length (objects ch) ≤ length (objects ch'))%nat ∧
    (∀ (j : nat) o', objects ch !! j = Some (Some o') →
       objects ch' !! j = Some (Some o')) ∧
    (∀ (j : nat) s, objects ch' !! j = Some s →
       s = None ∨ s = Some o ∨ objects ch !! j = Some s) ∧
    (∀ p, p ≠ c → (cave w = Some c → player_cave w ≠ Some p) →
       chunks w' !! p = chunks w !! p) ∧
    (∀ o', o' ≠ o → objs w' !! o' = objs w !! o') ∧
    cave w' = cave w ∧ player_cave w' = player_cave w.
Proof.
  intros Hok Halloc Hincr Hrun.
  pose proof Hok as (Hc & (H1 & Hlen & Hlast) & _).
  destruct (list_object_fields w c ch o w' Hrun Hc)
    as ((ch' & Hc' & Hfields) & _ & Hobjs & Hcave & Hplayer & _).
  exists ch'. split; [done|]. split; [done|].
  destruct (list_object_cases w c ch o Hok Halloc Hincr)
    as [[Hsame _]|(i & w'' & ch'' & Hrun' & [(_ & Hfree & _) _] & Hi & Hpost)].
  - rewrite Hsame in Hrun. injection Hrun as <-.
    assert (ch' = ch) as -> by congruence.
    split_and!; try done. intros j s Hs. by right; right.
  - rewrite Hrun' in Hrun. injection Hrun as ->.
    pose proof (post_chunk _ _ _ _ _ _ _ Hpost) as Hc''.
    assert (ch'' = ch') as -> by congruence.
    pose proof (post_obj_max _ _ _ _ _ _ _ Hpost) as Hmax.
    pose proof (post_objects _ _ _ _ _ _ _ Hpost) as Hobjects.
    split_and!; try done.
    + destruct (decide (i = obj_max ch)); lia.
    + rewrite Hobjects, length_app, length_insert. lia.
    + intros j o' Hj. rewrite Hobjects.
      pose proof (lookup_lt_Some _ _ _ Hj).
      rewrite lookup_app_l by (rewrite length_insert; lia).
      rewrite list_lookup_insert_ne; [done|]. intros <-. congruence.
    + intros j s Hs. rewrite Hobjects in Hs.
      apply lookup_app_Some in Hs as [Hs|[_ Hs]].
      * destruct (decide (j = Z.to_nat i)) as [->|Hne].
        -- rewrite list_lookup_insert_eq in Hs by lia. right; left. congruence.
        -- rewrite list_lookup_insert_ne in Hs by done. by right; right.
      * left. apply lookup_replicate in Hs as [-> _]. done.
    + by destruct Hpost.
Qed.

(** X12.  Listing an object that the index does not hold and delisting
    it at once gives the index back: both calls return, every slot the
    index had holds what it held, the object's [oidx] is zero, and the
    index has grown by [OBJECT_LIST_INCR] empty slots or not at all. *)
Theorem list_then_delist w c ch o :
  lists_ok w c ch → is_Some (objs w !! o) → 0 < OBJECT_LIST_INCR →
  (∀ j, 1 ≤ j < obj_max ch → objects ch !! Z.to_nat j ≠ Some (Some o)) →
  ∃ w1 w2 ch2,
    list_object w c (Some o) = Ok w1 ∧ delist_object w1 c o = Ok w2 ∧
    chunks w2 !! c = Some ch2 ∧
    objects ch2 =
      objects ch ++ replicate (Z.to_nat (obj_max ch2 - obj_max ch)) None ∧
    (obj_max ch2 = obj_max ch ∨ obj_max ch2 = obj_max ch + OBJECT_LIST_INCR) ∧
    objs w2 = <[o := Object 0]> (objs w).
Proof.
  intros Hok [ob Hob] Hincr Hfresh.
  pose proof Hok as (Hc & Hwf & Hknown). pose proof Hwf as (H1 & Hlen & Hlast).
  destruct (list_object_fresh w c ch o ob Hok Hob Hincr Hfresh)
    as (i & w1 & ch1 & Hrun1 & [(_ & Hnone & Hnk) _] & Hi & Hpost).
  destruct (list_post_lookup _ _ _ _ _ _ _ Hwf Hi Hincr Hpost) as [Hlook Hlt].
  pose proof (post_objects _ _ _ _ _ _ _ Hpost) as Hobjects.
  pose proof (post_obj_max _ _ _ _ _ _ _ Hpost) as Hmax.
  destruct (delist_object_cleared w1 c ch1 o (Object i))
    as (w2 & ch2 & Hrun2 & Hheap2 & Hobjs2 & Hmax2 & _ & Hok2).
  - by destruct Hpost.
  - rewrite (post_objs _ _ _ _ _ _ _ Hpost). apply lookup_insert_eq.
  - simpl. lia.
  - done.
  - simpl. intros (Hact & kp & k1 & o' & Hp & Hk1 & Ho').
    rewrite (post_cave _ _ _ _ _ _ _ Hpost) in Hact.
    rewrite (post_player_cave _ _ _ _ _ _ _ Hpost) in Hp.
    destruct (Hknown Hact) as (kp' & k & Hp' & _ & Hk & _ & _).
    assert (kp' = kp) as -> by congruence.
    destruct (post_known _ _ _ _ _ _ _ Hpost kp k Hact Hp Hk)
      as (k1' & Hk1' & Hk1objs & _).
    assert (k1' = k1) as -> by congruence.
    rewrite Hk1objs in Ho'. apply lookup_app_Some in Ho' as [Ho'|[_ Ho']].
    + apply Hnk. split; [done|]. by exists kp, k, o'.
    + by apply lookup_replicate in Ho' as [? _].
  - exists w1, w2, ch2. split; [done|]. split; [done|].
    split; [by destruct Hok2|]. simpl in Hobjs2, Hheap2. split_and!.
    + rewrite Hobjs2, Hobjects, Hmax2.
      rewrite insert_app_l by (rewrite length_insert; lia).
      by rewrite list_insert_insert_eq, list_insert_id.
    + rewrite Hmax2, Hmax. destruct (decide (i = obj_max ch)); [by right|by left].
    + rewrite Hheap2, (post_objs _ _ _ _ _ _ _ Hpost).
      apply insert_insert_eq.
Qed.

(** X13.  The slot an object is delisted from is free for the next
    object: after a call of [delist_object] that empties slot [oidx],
    listing another object that the index does not hold returns, puts it
    at an index from 1 to [oidx], and does not extend the index. *)
Theorem delist_then_list w c ch o ob o' :
  lists_ok w c ch → objs w !! o = Some ob → 0 < oidx ob →
  objects ch !! Z.to_nat (oidx ob) = Some (Some o) →
  ¬ known_holds w c (oidx ob) →
  is_Some (objs w !! o') → Some o' ∉ objects ch → 0 < OBJECT_LIST_INCR →
  ∃ w1 w2 ch2 i,
    delist_object w c o = Ok w1 ∧ list_object w1 c (Some o') = Ok w2 ∧
    objs w2 !! o' = Some (Object i) ∧ 1 ≤ i ≤ oidx ob ∧
    chunks w2 !! c = Some ch2 ∧
    objects ch2 !! Z.to_nat i = Some (Some o') ∧
    obj_max ch2 = obj_max ch ∧
    length (objects ch2) = length (objects ch).
Proof.
  intros Hok Hob Hpos Hs Hnk [ob' Hob'] Hnotin Hincr.
  pose proof Hok as (Hc & (H1 & Hlen & Hlast) & _).
  pose proof (lookup_lt_Some _ _ _ Hs) as Hidx.
  assert (Hne : o' ≠ o).
  { intros ->. apply Hnotin. by eapply list_elem_of_lookup_2. }
  destruct (delist_object_cleared w c ch o ob Hok Hob Hpos Hs Hnk)
    as (w1 & ch1 & Hrun1 & Hheap1 & Hobjs1 & Hmax1 & Hcave1 & Hok1).
  destruct (delist_object_others w c o w1 Hrun1) as [Hothers Hplayer1].
  pose proof Hok1 as (Hc1' & Hwf1 & _).
  destruct (list_object_fresh w1 c ch1 o' ob')
    as (i & w2 & ch2 & Hrun2 & [(Hi1 & _) Hmin] & Hi & Hpost); [done| |done| |].
  { by rewrite Hheap1, lookup_insert_ne. }
  { intros j _ Hj. rewrite Hobjs1 in Hj. apply Hnotin.
    destruct (decide (Z.to_nat j = Z.to_nat (oidx ob))) as [He|Hneq].
    - rewrite He, list_lookup_insert_eq in Hj by done. done.
    - rewrite list_lookup_insert_ne in Hj by done.
      by eapply list_elem_of_lookup_2. }
  assert (Hfree : free_slot w1 c ch1 (oidx ob)).
  { split; [lia|]. split.
    - rewrite Hobjs1. by apply list_lookup_insert_eq.
    - intros (Hact & kp & k & o2 & Hp & Hk & Ho2). apply Hnk.
      rewrite Hcave1 in Hact. rewrite Hplayer1 in Hp.
      split; [done|]. exists kp, k, o2. split; [done|]. split; [|done].
      rewrite <- Hothers; [done|]. intros ->.
      destruct Hok as (_ & _ & Hknown).
      destruct (Hknown Hact) as (kp' & _ & Hp' & Hnec & _). congruence. }
  assert (Hle : i ≤ oidx ob).
  { destruct (decide (i ≤ oidx ob)) as [|Hgt]; [done|].
    destruct (Hmin (oidx ob)); [lia|done]. }
  assert (Hidx' : oidx ob < obj_max ch).
  { destruct (decide (oidx ob = obj_max ch)) as [He|]; [|lia].
    rewrite He in Hs. congruence. }
  destruct (list_post_lookup _ _ _ _ _ _ _ Hwf1 Hi Hincr Hpost) as [Hlook _].
  pose proof (post_obj_max _ _ _ _ _ _ _ Hpost) as Hmax2.
  rewrite decide_False in Hmax2 by lia.
  pose proof (post_ok _ _ _ _ _ _ _ Hpost) as (Hc2 & (_ & Hlen2 & _) & _).
  exists w1, w2, ch2, i. split_and!; try done; try lia.
  rewrite (post_objs _ _ _ _ _ _ _ Hpost). apply lookup_insert_eq.
Qed.

(** ** Sequences of calls *)

Lemma run_call_index_ok w c ch k :
  index_ok w c ch → is_Some (objs w !! call_object k) →
  0 < OBJECT_LIST_INCR →
  ∃ w' ch', run_call w c k = Ok w' ∧ index_ok w' c ch' ∧
    obj_max ch ≤ obj_max ch' ∧
    (∀ o, is_Some (objs w !! o) → is_Some (objs w' !! o)).
Proof.
  intros (Hok & Hina & Hzero & Hfwd & Hbwd) [ob Hob] Hincr.
  pose proof Hok as (Hc & Hwf & _). pose proof Hwf as (H1 & Hlen & Hlast).
  destruct k as [o|o]; simpl in Hob |- *.
  - (* list *)
    destruct (decide (oidx ob = 0)) as [Hz|Hnz].
    + assert (Hfresh : ∀ j, 1 ≤ j < obj_max ch →
                objects ch !! Z.to_nat j ≠ Some (Some o)).
      { intros j Hj Hin. apply Hfwd in Hin. rewrite Hob in Hin.
        injection Hin as ->. simpl in Hz. lia. }
      destruct (list_object_fresh w c ch o ob Hok Hob Hincr Hfresh)
        as (i & w' & ch' & Hrun & [(_ & Hnone & _) _] & Hi & Hpost).
      destruct (list_post_lookup _ _ _ _ _ _ _ Hwf Hi Hincr Hpost) as [Hlook _].
      pose proof (post_objects _ _ _ _ _ _ _ Hpost) as Hobjects.
      pose proof (post_objs _ _ _ _ _ _ _ Hpost) as Hobjs.
      pose proof (post_obj_max _ _ _ _ _ _ _ Hpost) as Hmax.
      exists w', ch'. split; [done|]. split; [|split].
      * split; [by destruct Hpost|].
        split; [by rewrite (post_cave _ _ _ _ _ _ _ Hpost)|]. split_and!.
        -- rewrite Hobjects, lookup_app_l by (rewrite length_insert; lia).
           by rewrite list_lookup_insert_ne by lia.
        -- intros j o' Hj. rewrite Hobjects in Hj. rewrite Hobjs.
           apply lookup_app_Some in Hj as [Hj|[_ Hj]];
             [|by apply lookup_replicate in Hj as [? _]].
           destruct (decide (j = Z.to_nat i)) as [->|Hne].
           ++ rewrite list_lookup_insert_eq in Hj by lia. injection Hj as <-.
              rewrite lookup_insert_eq. do 2 f_equal. lia.
           ++ rewrite list_lookup_insert_ne in Hj by done.
              rewrite lookup_insert_ne; [by apply Hfwd|].
              intros <-. pose proof (Hfwd _ _ Hj) as Hj'. rewrite Hob in Hj'.
              injection Hj' as ->. simpl in Hz.
              assert (j = 0%nat) as -> by lia. congruence.
        -- intros o' ob' Ho' Hnz. rewrite Hobjs in Ho'.
           destruct (decide (o' = o)) as [->|Hne].
           ++ rewrite lookup_insert_eq in Ho'. injection Ho' as <-. simpl.
              split; [lia|done].
           ++ rewrite lookup_insert_ne in Ho' by done.
              destruct (Hbwd o' ob' Ho' Hnz) as [Hpos Hslot]. split; [done|].
              rewrite Hobjects.
              rewrite lookup_app_l
                by (rewrite length_insert; by eapply lookup_lt_Some).
              rewrite list_lookup_insert_ne; [done|]. intros He.
              rewrite <- He in Hslot. congruence.
      * destruct (decide (i = obj_max ch)); lia.
      * intros o' Ho'. rewrite Hobjs.
        destruct (decide (o' = o)) as [->|Hne].
        -- rewrite lookup_insert_eq. by eexists.
        -- by rewrite lookup_insert_ne.
    + destruct (Hbwd o ob Hob Hnz) as [Hpos Hslot].
      exists w, ch. split; [|done].
      apply (list_object_found w c ch o (oidx ob)); [done| |done].
      pose proof (lookup_lt_Some _ _ _ Hslot).
      destruct (decide (oidx ob = obj_max ch)) as [He|]; [|lia].
      rewrite He in Hslot. congruence.
  - (* delist *)
    destruct (decide (oidx ob = 0)) as [Hz|Hnz].
    + exists w, ch. split; [|done]. by eapply delist_object_unlisted.
    + destruct (Hbwd o ob Hob Hnz) as [Hpos Hslot].
      destruct (delist_object_cleared w c ch o ob Hok Hob Hpos Hslot)
        as (w' & ch' & Hrun & Hobjs & Hobjects & Hmax & Hcave & Hok').
      { by intros [? _]. }
      exists w', ch'. split; [done|]. split; [|split].
      * split; [done|]. split; [by rewrite Hcave|]. split_and!.
        -- rewrite Hobjects. by rewrite list_lookup_insert_ne by lia.
        -- intros j o' Hj. rewrite Hobjects in Hj. rewrite Hobjs.
           destruct (decide (j = Z.to_nat (oidx ob))) as [->|Hne].
           ++ rewrite list_lookup_insert_eq in Hj by (by eapply lookup_lt_Some).
              done.
           ++ rewrite list_lookup_insert_ne in Hj by done.
              rewrite lookup_insert_ne; [by apply Hfwd|].
              intros <-. apply Hfwd in Hj. rewrite Hob in Hj.
              injection Hj as ->. simpl in Hne. lia.
        -- intros o' ob' Ho' Hnz'. rewrite Hobjs in Ho'.
           destruct (decide (o' = o)) as [->|Hne].
           ++ rewrite lookup_insert_eq in Ho'. injection Ho' as <-. done.
           ++ rewrite lookup_insert_ne in Ho' by done.
              destruct (Hbwd o' ob' Ho' Hnz') as [Hpos' Hslot']. split; [done|].
              rewrite Hobjects. rewrite list_lookup_insert_ne; [done|].
              intros He. rewrite He in Hslot. congruence.
      * lia.
      * intros o' Ho'. rewrite Hobjs.
        destruct (decide (o' = o)) as [->|Hne].
        -- rewrite lookup_insert_eq. by eexists.
        -- by rewrite lookup_insert_ne.
Qed.

Lemma run_calls_index_ok w c ch ks :
  index_ok w c ch → Forall (λ k, is_Some (objs w !! call_object k)) ks →
  0 < OBJECT_LIST_INCR →
  ∃ w' ch', run_calls w c ks = Ok w' ∧ index_ok w' c ch' ∧
    obj_max ch ≤ obj_max ch'.
Proof.
  intros Hindex Hall Hincr. revert w ch Hindex Hall.
  induction ks as [|k ks IH]; intros w ch Hindex Hall.
  - exists w, ch. done.
  - apply Forall_cons in Hall as [Hk Hall]. simpl.
    destruct (run_call_index_ok w c ch k Hindex Hk Hincr)
      as (w1 & ch1 & -> & Hindex1 & Hmax1 & Halloc). simpl.
    destruct (IH w1 ch1 Hindex1) as (w' & ch' & Hrun & Hindex' & Hmax').
    { eapply Forall_impl; [exact Hall|]. intros k' Hk'. by apply Halloc. }
    exists w', ch'. split; [done|]. split; [done|]. lia.
Qed.

Lemma index_ok_agree w c ch :
  index_ok w c ch →
  chunks w !! c = Some ch ∧
  (∀ (i : nat) o, objects ch !! i = Some (Some o) ↔
     objs w !! o = Some (Object (Z.of_nat i)) ∧ i ≠ 0%nat) ∧
  (∀ (i j : nat) o, objects ch !! i = Some (Some o) →
     objects ch !! j = Some (Some o) → i = j).
Proof.
  intros ((Hc & _) & _ & Hzero & Hfwd & Hbwd). split; [done|]. split.
  - intros i o. split.
    + intros Hi. split; [by apply Hfwd|]. intros ->. congruence.
    + intros [Ho Hi]. destruct (Hbwd o _ Ho) as [_ Hslot]; [simpl; lia|].
      simpl in Hslot. by rewrite Nat2Z.id in Hslot.
  - intros i j o Hi Hj. apply Hfwd in Hi, Hj. rewrite Hi in Hj.
    injection Hj. lia.
Qed.

(** X14.  On a chunk that is not the active one, where index and [oidx]
    agree (see [index_ok]), every sequence of [list_object] and
    [delist_object] calls on allocated objects returns, without an
    undefined access or a failed assertion, and index and [oidx] agree
    afterwards: slot [i] holds an object exactly when the object's [oidx]
    is [i] and [i] is not zero, so that no object is in two slots; and
    [obj_max] has not decreased. *)
Theorem calls_keep_index w c ch ks :
  index_ok w c ch → Forall (λ k, is_Some (objs w !! call_object k)) ks →
  0 < OBJECT_LIST_INCR →
  ∃ w' ch', run_calls w c ks = Ok w' ∧ chunks w' !! c = Some ch' ∧
    obj_max ch ≤ obj_max ch' ∧
    (∀ (i : nat) o, objects ch' !! i = Some (Some o) ↔
       objs w' !! o = Some (Object (Z.of_nat i)) ∧ i ≠ 0%nat) ∧
    (∀ (i j : nat) o, objects ch' !! i = Some (Some o) →
       objects ch' !! j = Some (Some o) → i = j).
Proof.
  intros Hindex Hall Hincr.
  destruct (run_calls_index_ok w c ch ks Hindex Hall Hincr)
    as (w' & ch' & Hrun & Hindex' & Hmax).
  destruct (index_ok_agree w' c ch' Hindex') as (Hc' & Hiff & Hinj).
  by exists w', ch'.
Qed.

(** X15.  In a world where no object is listed, a chunk made by
    [cave_new] that is not the active one can take every sequence of
    [list_object] and [delist_object] calls on allocated objects: all
    calls return, and afterwards slot [i] of the index holds an object
    exactly when the object's [oidx] is [i] and [i] is not zero; the
    index is at least as large as it was created. *)
Theorem calls_on_new_chunk w h wd ks :
  let c := (cave_new w h wd).1 in
  (∀ o ob, objs w !! o = Some ob → oidx ob = 0) → cave w ≠ Some c →
  Forall (λ k, is_Some (objs w !! call_object k)) ks →
  1 < OBJECT_LIST_SIZE → 0 < OBJECT_LIST_INCR →
  ∃ w' ch', run_calls (cave_new w h wd).2 c ks = Ok w' ∧
    chunks w' !! c = Some ch' ∧
    OBJECT_LIST_SIZE - 1 ≤ obj_max ch' ∧
    (∀ (i : nat) o, objects ch' !! i = Some (Some o) ↔
       objs w' !! o = Some (Object (Z.of_nat i)) ∧ i ≠ 0%nat) ∧
    (∀ (i j : nat) o, objects ch' !! i = Some (Some o) →
       objects ch' !! j = Some (Some o) → i = j).
Proof.
  intros c Hunlisted Hina Hall Hsize Hincr.
  destruct (cave_new_ok w h wd Hsize Hina) as (ch0 & Hok0 & Hobjs0 & Hheap0 & Hcave0).
  assert (Hmax0 : obj_max ch0 = OBJECT_LIST_SIZE - 1).
  { destruct Hok0 as (Hc0 & _). unfold cave_new in Hc0. simpl in Hc0.
    rewrite lookup_insert_eq in Hc0. by injection Hc0 as <-. }
  assert (Hindex0 : index_ok (cave_new w h wd).2 c ch0).
  { split; [done|]. split; [by rewrite Hcave0|]. split_and!.
    - rewrite Hobjs0. apply lookup_replicate_2. lia.
    - intros i o Hi. rewrite Hobjs0 in Hi.
      by apply lookup_replicate in Hi as [? _].
    - intros o ob Ho Hnz. rewrite Hheap0 in Ho.
      by rewrite (Hunlisted o ob Ho) in Hnz. }
  destruct (run_calls_index_ok _ c ch0 ks Hindex0) as (w' & ch' & Hrun & Hindex' & Hmax);
    [by rewrite Hheap0|done|].
  destruct (index_ok_agree w' c ch' Hindex') as (Hc' & Hiff & Hinj).
  exists w', ch'. split_and!; try done. lia.
Qed.

(** X16.  On a well-formed chunk (see [lists_ok]) [list_object] of a
    null or allocated object always returns, and both operations keep
    the chunk well-formed: the index has [obj_max + 1] slots of which the
    last is empty, and the known chunk of the active chunk has the same
    [obj_max]; [delist_object] does not change [obj_max]. *)
Theorem operations_keep_lists_ok w c ch :
  lists_ok w c ch → 0 < OBJECT_LIST_INCR →
  (∀ obj, (∀ o, obj = Some o → is_Some (objs w !! o)) →
     ∃ w' ch', list_object w c obj = Ok w' ∧ lists_ok w' c ch' ∧
       obj_max ch ≤ obj_max ch') ∧
  (∀ o w', delist_object w c o = Ok w' →
     ∃ ch', lists_ok w' c ch' ∧ obj_max ch' = obj_max ch).
Proof.
  intros Hok Hincr. split.
  - intros [o|] Halloc; [|by exists w, ch].
    destruct (list_object_cases w c ch o Hok) as [[Hsame _]|Hfresh];
      [by apply Halloc|done| |].
    + by exists w, ch.
    + destruct Hfresh as (i & w' & ch' & Hrun & _ & Hi & Hpost).
      exists w', ch'. split; [done|]. split; [by destruct Hpost|].
      rewrite (post_obj_max _ _ _ _ _ _ _ Hpost).
      destruct (decide (i = obj_max ch)); lia.
  - intros o w' Hrun.
    destruct (delist_object_preserves w c ch o w' Hok Hrun) as [ch' Hok'].
    exists ch'. split; [done|].
    destruct Hok as (Hc & _). destruct Hok' as (Hc' & _).
    destruct (delist_object_inv w c o w' Hrun)
      as [->|(ob & ch0 & _ & _ & Hc0 & _ & _ & ->)]; [congruence|].
    simpl in Hc'. rewrite lookup_insert_eq in Hc'. injection Hc' as <-.
    simpl. congruence.
Qed.

End ObjectListMore.

(** ** The integrity check and the two operations *)

Section Integrity.
Context `{!Layout} `{!Piles}.

Lemma check_integrity_loop_all (n : nat) i w places ch k :
  check_integrity_loop n i w places ch k = Ok () ↔
  ∀ j, i ≤ j < i + Z.of_nat n → check_slot w places ch k j = Ok ().
Proof.
  revert i. induction n as [|n IH]; intros i; simpl.
  - split; [|done]. intros _ j ?. lia.
  - destruct (check_slot w places ch k i) as [[]| |] eqn:Hi; simpl.
    + rewrite IH. split.
      * intros Hall j Hj. destruct (decide (j = i)) as [->|]; [done|].
        apply Hall. lia.
      * intros Hall j Hj. apply Hall. lia.
    + split; [done|]. intros Hall. rewrite Hall in Hi by lia. done.
    + split; [done|]. intros Hall. rewrite Hall in Hi by lia. done.
Qed.

Lemma check_slot_ext w w' places ch ch' k k' j :
  objects ch' !! Z.to_nat j = objects ch !! Z.to_nat j →
  objects k' !! Z.to_nat j = objects k !! Z.to_nat j →
  squares ch' = squares ch → squares k' = squares k →
  (∀ o', objects ch !! Z.to_nat j = Some (Some o') ∨
         objects k !! Z.to_nat j = Some (Some o') →
         objs w' !! o' = objs w !! o') →
  check_slot w' places ch' k' j = check_slot w places ch k j.
Proof.
  intros Hch Hk Hsq Hksq Hobjs. unfold check_slot, array_get, deref.
  destruct (decide (0 ≤ j)); [|done]. rewrite Hch, Hk, Hsq, Hksq.
  destruct (objects ch !! Z.to_nat j) as [[o1|]|]; simpl; [| |done].
  - rewrite (Hobjs o1) by (by left).
    destruct (objects k !! Z.to_nat j) as [[ko|]|]; simpl; [|done..].
    by rewrite (Hobjs ko) by (by right).
  - destruct (objects k !! Z.to_nat j) as [[ko|]|]; done.
Qed.

Lemma check_slot_inv w places ch k j :
  check_slot w places ch k j = Ok () →
  0 ≤ j ∧
  (∀ o', objects ch !! Z.to_nat j = Some (Some o') →
     ∃ ob, objs w !! o' = Some ob ∧ oidx ob = j) ∧
  (∀ ko, objects k !! Z.to_nat j = Some (Some ko) →
     ∃ kob, objs w !! ko = Some kob ∧ oidx kob = j).
Proof.
  unfold check_slot, array_get, deref, c_assert.
  destruct (decide (0 ≤ j)); [|done].
  destruct (objects ch !! Z.to_nat j) as [[o1|]|]; simpl; [| |done];
    (destruct (objects k !! Z.to_nat j) as [[ko|]|]; simpl; [| |done]);
    try done.
  - destruct (objs w !! o1) as [ob|] eqn:Hob; simpl; [|done].
    destruct (bool_decide (oidx ob = j)) eqn:Hoidx; simpl; [|done].
    apply bool_decide_eq_true in Hoidx.
    destruct (places !! o1) as [pl|]; simpl; [|done].
    destruct (check_pile (squares ch) pl o1) as [[]| |]; simpl; [|done..].
    destruct (bool_decide (Some ko = known pl)); simpl; [|done].
    destruct (places !! ko) as [kpl|]; simpl; [|done].
    destruct (check_pile (squares k) kpl ko) as [[]| |]; simpl; [|done..].
    destruct (objs w !! ko) as [kob|] eqn:Hkob; simpl; [|done].
    destruct (bool_decide (oidx kob = j)) eqn:Hkoidx; simpl; [|done].
    apply bool_decide_eq_true in Hkoidx. intros _.
    split; [done|]. split.
    + intros o' [= <-]. by exists ob.
    + intros ko' [= <-]. by exists kob.
  - destruct (objs w !! o1) as [ob|] eqn:Hob; simpl; [|done].
    destruct (bool_decide (oidx ob = j)) eqn:Hoidx; simpl; [|done].
    apply bool_decide_eq_true in Hoidx. intros _.
    split; [done|]. split; [|done]. intros o' [= <-]. by exists ob.
Qed.

Lemma check_slot_empty w places ch k j :
  0 ≤ j → objects ch !! Z.to_nat j = Some None →
  objects k !! Z.to_nat j = Some None →
  check_slot w places ch k j = Ok ().
Proof.
  intros Hj Hch Hk. unfold check_slot, array_get.
  rewrite !decide_True by done. by rewrite Hch, Hk.
Qed.

Lemma check_slot_listed w places ch k j o pl :
  0 ≤ j → objects ch !! Z.to_nat j = Some (Some o) →
  objects k !! Z.to_nat j = Some None →
  objs w !! o = Some (Object j) → places !! o = Some pl →
  check_pile (squares ch) pl o = Ok () →
  check_slot w places ch k j = Ok ().
Proof.
  intros Hj Hch Hk Ho Hpl Hpile. unfold check_slot, array_get, deref.
  rewrite !decide_True by done. rewrite Hch, Hk. simpl. rewrite Ho. simpl.
  rewrite bool_decide_true by done. simpl. rewrite Hpl. simpl.
  by rewrite Hpile.
Qed.

Lemma check_integrity_inv w places c kp ch k :
  chunks w !! c = Some ch → chunks w !! kp = Some k →
  object_lists_check_integrity w places c kp = Ok () →
  obj_max ch = obj_max k ∧
  ∀ j, 0 ≤ j < obj_max ch → check_slot w places ch k j = Ok ().
Proof.
  intros Hc Hk. unfold object_lists_check_integrity, deref, c_assert.
  rewrite Hc, Hk. simpl.
  destruct (bool_decide (obj_max ch = obj_max k)) eqn:Hmax; simpl; [|done].
  apply bool_decide_eq_true in Hmax. rewrite check_integrity_loop_all.
  intros Hall. split; [done|]. intros j Hj. apply Hall. lia.
Qed.

Lemma check_integrity_intro w places c kp ch k :
  chunks w !! c = Some ch → chunks w !! kp = Some k →
  obj_max ch = obj_max k →
  (∀ j, 0 ≤ j < obj_max ch → check_slot w places ch k j = Ok ()) →
  object_lists_check_integrity w places c kp = Ok ().
Proof.
  intros Hc Hk Hmax Hall. unfold object_lists_check_integrity, deref, c_assert.
  rewrite Hc, Hk. simpl. rewrite bool_decide_true by done. simpl.
  apply check_integrity_loop_all. intros j Hj. apply Hall. lia.
Qed.

(** X17.  Listing keeps the check passing.  On the active chunk, in a
    state that passes [object_lists_check_integrity], listing an object
    that neither index holds, whose coordinates are unset or whose square
    has it in its pile, returns and leaves a state that passes the check,
    whether the index had a free slot or had to be extended. *)
Theorem list_object_keeps_integrity w places c kp ch k o pl :
  lists_ok w c ch → cave w = Some c → player_cave w = Some kp →
  chunks w !! kp = Some k →
  object_lists_check_integrity w places c kp = Ok () →
  is_Some (objs w !! o) → places !! o = Some pl →
  check_pile (squares ch) pl o = Ok () →
  Some o ∉ objects ch → Some o ∉ objects k → 0 < OBJECT_LIST_INCR →
  ∃ w', list_object w c (Some o) = Ok w' ∧
        object_lists_check_integrity w' places c kp = Ok ().
Proof.
  intros Hok Hact Hp Hk Hcheck [ob Hob] Hpl Hpile Hnotin Hnotink Hincr.
  pose proof Hok as (Hc & Hwf & Hknown). pose proof Hwf as (H1 & Hlen & Hlast).
  destruct (Hknown Hact) as (kp' & k' & Hp' & Hne & Hk' & (_ & Hklen & Hklast) & Hkmax).
  assert (kp' = kp) as -> by congruence. assert (k' = k) as -> by congruence.
  destruct (check_integrity_inv w places c kp ch k Hc Hk Hcheck) as [_ Hslots].
  destruct (list_object_fresh w c ch o ob Hok Hob Hincr)
    as (i & w' & ch' & Hrun & [(_ & Hnone & Hnk) _] & Hi & Hpost).
  { intros j _ Hj. apply Hnotin. by eapply list_elem_of_lookup_2. }
  exists w'. split; [done|].
  destruct (list_post_lookup _ _ _ _ _ _ _ Hwf Hi Hincr Hpost) as [Hlook _].
  pose proof (post_chunk _ _ _ _ _ _ _ Hpost) as Hc'.
  pose proof (post_objects _ _ _ _ _ _ _ Hpost) as Hobjects.
  pose proof (post_objs _ _ _ _ _ _ _ Hpost) as Hobjs.
  pose proof (post_obj_max _ _ _ _ _ _ _ Hpost) as Hmax.
  destruct (post_known _ _ _ _ _ _ _ Hpost kp k Hact Hp Hk)
    as (k1 & Hk1 & Hk1objs & Hk1max).
  destruct (list_object_fields w c ch o w' Hrun Hc)
    as ((ch'' & Hc'' & Hfields) & Hallfields & _).
  assert (ch'' = ch') as -> by congruence.
  assert (Hsq : squares ch' = squares ch) by (by rewrite <- Hfields).
  assert (Hksq : squares k1 = squares k).
  { destruct (Hallfields kp k Hk) as (k1' & Hk1' & Hkfields).
    assert (k1' = k1) as -> by congruence. by rewrite <- Hkfields. }
  apply (check_integrity_intro w' places c kp ch' k1); [done|done|lia|].
  intros j Hj.
  assert (Hgrow : Z.to_nat (obj_max ch' - obj_max ch) =
                  if decide (i = obj_max ch) then Z.to_nat OBJECT_LIST_INCR
                  else 0%nat).
  { rewrite Hmax. destruct (decide (i = obj_max ch)); lia. }
  destruct (decide (j = i)) as [->|Hji].
  - apply (check_slot_listed _ _ _ _ _ o pl); try done; [lia| | |by rewrite Hsq].
    + rewrite Hk1objs, lookup_app_l by lia.
      destruct (lookup_lt_is_Some_2 (objects k) (Z.to_nat i)) as [[o'|] Hs];
        [lia| |done].
      destruct Hnk. split; [done|]. by exists kp, k, o'.
    + rewrite Hobjs, lookup_insert_eq. done.
  - destruct (decide (j < obj_max ch)) as [Hlt|Hge].
    + rewrite (check_slot_ext w w' places ch ch' k k1 j); [by apply Hslots; lia|..];
        try done.
      * rewrite Hobjects, lookup_app_l by (rewrite length_insert; lia).
        by rewrite list_lookup_insert_ne by lia.
      * by rewrite Hk1objs, lookup_app_l by lia.
      * intros o' Ho'. rewrite Hobjs, lookup_insert_ne; [done|]. intros <-.
        destruct Ho' as [Ho'|Ho']; [apply Hnotin|apply Hnotink];
          by eapply list_elem_of_lookup_2.
    + assert (Hieq : i = obj_max ch)
        by (destruct (decide (i = obj_max ch)); [done|lia]).
      rewrite decide_True in Hgrow by done. rewrite decide_True in Hmax by done.
      apply check_slot_empty; [lia| |].
      * rewrite Hobjects, lookup_app_r by (rewrite length_insert; lia).
        apply lookup_replicate_2. rewrite length_insert. lia.
      * rewrite Hk1objs, lookup_app_r by lia.
        apply lookup_replicate_2. lia.
Qed.

(** X18.  Delisting keeps the check passing.  On the active chunk, in a
    state that passes [object_lists_check_integrity], a call of
    [delist_object] that returns leaves a state that passes the check:
    the slot is emptied only when the known chunk holds nothing at its
    index. *)
Theorem delist_object_keeps_integrity w places c kp ch k o w' :
  lists_ok w c ch → cave w = Some c → player_cave w = Some kp →
  chunks w !! kp = Some k →
  object_lists_check_integrity w places c kp = Ok () →
  delist_object w c o = Ok w' →
  object_lists_check_integrity w' places c kp = Ok ().
Proof.
  intros Hok Hact Hp Hk Hcheck Hrun.
  pose proof Hok as (Hc & Hwf & Hknown).
  destruct (Hknown Hact) as (kp' & k' & Hp' & Hne & Hk' & _ & Hkmax).
  assert (kp' = kp) as -> by congruence. assert (k' = k) as -> by congruence.
  destruct (check_integrity_inv w places c kp ch k Hc Hk Hcheck) as [_ Hslots].
  destruct (delist_object_inv w c o w' Hrun)
    as [->|(ob & ch0 & Hob & Hpos & Hc0 & Hs & Hfalse & ->)]; [done|].
  assert (ch0 = ch) as -> by congruence.
  assert (Hkidx : objects k !! Z.to_nat (oidx ob) = Some None).
  { unfold known_object_at, deref in Hfalse.
    rewrite decide_True, Hp, Hk in Hfalse by done. simpl in Hfalse.
    destruct (array_get (objects k) (oidx ob)) as [s| |] eqn:Hget; [|done..].
    apply array_get_inv in Hget as [_ Hget]. simpl in Hfalse.
    injection Hfalse as Hfalse. apply bool_decide_eq_false in Hfalse.
    rewrite Hget. f_equal. destruct s; [|done]. by destruct Hfalse. }
  eapply (check_integrity_intro _ places c kp _ k).
  - simpl. apply lookup_insert_eq.
  - simpl. by rewrite lookup_insert_ne.
  - simpl. lia.
  - simpl. intros j Hj.
    destruct (decide (j = oidx ob)) as [->|Hji].
    + apply check_slot_empty; [lia| |done]. simpl.
      apply list_lookup_insert_eq. by eapply lookup_lt_Some.
    + destruct (check_slot_inv w places ch k j (Hslots j Hj)) as (_ & Hreal & Hkn).
      rewrite (check_slot_ext w _ places ch _ k k j); [by apply Hslots|..];
        try done.
      * simpl. by rewrite list_lookup_insert_ne by lia.
      * simpl. intros o' Ho'. rewrite lookup_insert_ne; [done|]. intros <-.
        destruct Ho' as [Ho'|Ho'];
          [destruct (Hreal _ Ho') as (ob' & Hob' & Hidx)
          |destruct (Hkn _ Ho') as (ob' & Hob' & Hidx)];
          rewrite Hob in Hob'; injection Hob' as <-; lia.
Qed.

End Integrity.

(** ** The locals of [scatter] *)

Section ScatterLocals.
Context `{!Oracles}.

(** X19.  [scatter] never hands out what its locals [ny] and [nx] held
    before the loop: whatever the two held, the location written to the
    out-parameters and the generator are the same, because the loop runs
    at least once and the first pick overwrites both. *)
Theorem scatter_initialised (fuel : nat) w c y x d need_los g ny0 nx0 ny1 nx1 :
  scatter fuel w c y x d need_los g ny0 nx0 =
  scatter fuel w c y x d need_los g ny1 nx1.
Proof.
  unfold scatter. destruct fuel as [|fuel]; [done|].
  by rewrite !scatter_loop_step by (simpl; lia).
Qed.

End ScatterLocals.

(** * The further properties on the sample states *)

Lemma ex_features_distinct (j k : Z) (s : string) :
  0 ≤ j < 24 → 0 ≤ k < 24 →
  feat_name ex_features j = Some s → feat_name ex_features k = Some s → j = k.
Proof.
  intros Hj Hk Hjs Hks.
  assert (Hall : Forall (λ j, Forall (λ k,
            feat_name ex_features j = feat_name ex_features k →
            feat_name ex_features j = None ∨ j = k) (seqZ 0 24)) (seqZ 0 24))
    by (apply (bool_decide_unpack _); vm_compute; reflexivity).
  rewrite Forall_forall in Hall.
  specialize (Hall j ltac:(apply elem_of_seqZ; lia)).
  rewrite Forall_forall in Hall.
  destruct (Hall k ltac:(apply elem_of_seqZ; lia)) as [Hnone|]; congruence.
Qed.

Lemma ex_features_terrain (n : string) :
  n ∈ terrain_names → ∃ k, 0 ≤ k < 24 ∧ feat_name ex_features k = Some n.
Proof.
  intros Hn.
  assert (Hall : Forall (λ n, Exists (λ k, feat_name ex_features k = Some n)
                               (seqZ 0 24)) terrain_names)
    by (apply (bool_decide_unpack _); vm_compute; reflexivity).
  rewrite Forall_forall in Hall. apply Hall in Hn.
  apply Exists_exists in Hn as (k & Hk & Hname). exists k.
  apply elem_of_seqZ in Hk. split; [lia|done].
Qed.

Lemma ex_features_no_lava_spec (k : Z) :
  0 ≤ k < 24 → feat_name ex_features_no_lava k ≠ Some "lava"%string.
Proof.
  intros Hk.
  assert (Hall : Forall (λ k, feat_name ex_features_no_lava k ≠ Some "lava"%string)
                   (seqZ 0 24))
    by (apply (bool_decide_unpack _); vm_compute; reflexivity).
  rewrite Forall_forall in Hall. apply Hall, elem_of_seqZ. lia.
Qed.

Lemma ex_stash_ok : index_ok ex_stash 3%positive ex_vault.
Proof.
  split; [|split; [done|split; [done|split]]].
  - split; [reflexivity|]. split; [by split_and!|]. by intros [=].
  - intros [|[|[|[|[|i]]]]] o Hi; try done; by injection Hi as <-.
  - apply (map_Forall_lookup (λ o ob, oidx ob ≠ 0 →
             0 < oidx ob ∧
             objects ex_vault !! Z.to_nat (oidx ob) = Some (Some o))).
    apply (bool_decide_unpack _). vm_compute. reflexivity.
Qed.

Lemma ex_idle_unlisted (o : addr) (ob : object) :
  objs ex_idle !! o = Some ob → oidx ob = 0.
Proof.
  revert o ob. apply (map_Forall_lookup (λ _ ob, oidx ob = 0)).
  apply (bool_decide_unpack _). vm_compute. reflexivity.
Qed.

Lemma ex_play_unknown_1 : ¬ known_holds ex_play 1%positive 1.
Proof.
  intros (_ & kp & k & o & Hp & Hk & Ho).
  injection Hp as <-. injection Hk as <-. discriminate Ho.
Qed.

Lemma ex_play_checked :
  @object_lists_check_integrity ex_piles ex_play ex_places 1%positive 2%positive
  = Ok ().
Proof. vm_compute. reflexivity. Qed.

Lemma lookup_feat_first_match_witness :
  lookup_feat ex_idle ex_features "lava" ≠ Undefined ∧
  (∀ j, lookup_feat ex_idle ex_features "lava" = Ok j ↔
        0 ≤ j < 24 ∧ feat_name ex_features j = Some "lava"%string ∧
        ∀ k, 0 ≤ k < j → feat_name ex_features k ≠ Some "lava"%string) ∧
  (lookup_feat ex_idle ex_features "lava" = Abort ↔
   ∀ k, 0 ≤ k < 24 → feat_name ex_features k ≠ Some "lava"%string).
Proof.
  apply (lookup_feat_first_match ex_idle ex_features "lava");
    [simpl; lia|simpl; lia].
Defined.

Lemma lookup_feat_round_trip_witness :
  lookup_feat ex_idle ex_features "lava" = Ok 21.
Proof.
  apply (lookup_feat_round_trip ex_idle ex_features 21 "lava");
    [simpl; lia| |simpl; lia|reflexivity].
  intros j k s. apply ex_features_distinct.
Defined.

Lemma set_terrain_spec_witness :
  (∃ t, set_terrain ex_idle ex_features = Ok t ∧
     Forall2 (λ v n, 0 ≤ v < 24 ∧ feat_name ex_features v = Some n)
       (terrain_values t) terrain_names ∧
     NoDup (terrain_values t)) ∧
  set_terrain ex_idle ex_features_no_lava = Abort.
Proof.
  split.
  - apply (set_terrain_spec ex_idle ex_features); [simpl; lia|simpl; lia|].
    apply ex_features_terrain.
  - apply (set_terrain_spec ex_idle ex_features_no_lava); [simpl; lia|simpl; lia|].
    exists "lava"%string. split; [|apply ex_features_no_lava_spec].
    apply (bool_decide_unpack _). vm_compute. reflexivity.
Defined.



Lemma count_feats_out_parameters_witness :
  ∃ yy xx,
    (@count_feats ex_oracles ex_play (Some 0) (Some 0) ex_test true).1.2 = Some yy ∧
    (@count_feats ex_oracles ex_play (Some 0) (Some 0) ex_test true).2 = Some xx ∧
    @counted ex_oracles ex_play ex_test (yy, xx) ∧
    -1 ≤ yy - 5 ≤ 1 ∧ -1 ≤ xx - 5 ≤ 1 ∧
    (true = false → (yy, xx) ≠ (5, 5)).
Proof.
  apply (@count_feats_out_parameters ex_oracles ex_play ex_test (Some 0) (Some 0) true);
    [by eexists|by eexists|reflexivity].
Defined.

Lemma delist_object_idempotent_witness :
  ∃ w', delist_object ex_play 1%positive 11%positive = Ok w' ∧
        delist_object w' 1%positive 11%positive = Ok w'.
Proof.
  eexists. split; [reflexivity|].
  apply (delist_object_idempotent ex_play). reflexivity.
Defined.

Lemma delist_object_frame_witness :
  ∃ w', delist_object ex_play 1%positive 11%positive = Ok w' ∧
  ∃ ch', chunks w' !! 1%positive = Some ch' ∧
    set_objects ch' (objects ex_chunk) = ex_chunk ∧
    length (objects ch') = length (objects ex_chunk) ∧
    (∀ j : nat, objects ch' !! j = objects ex_chunk !! j ∨
       (objects ex_chunk !! j = Some (Some 11%positive) ∧
        objects ch' !! j = Some None)) ∧
    (∀ p, p ≠ 1%positive → chunks w' !! p = chunks ex_play !! p) ∧
    (∀ o', o' ≠ 11%positive → objs w' !! o' = objs ex_play !! o') ∧
    cave w' = cave ex_play ∧ player_cave w' = player_cave ex_play.
Proof.
  eexists. split; [reflexivity|].
  apply (delist_object_frame ex_play 1%positive 11%positive); reflexivity.
Defined.

Lemma list_object_frame_witness :
  ∃ w', @list_object ex_layout ex_play 1%positive (Some 16%positive) = Ok w' ∧
  ∃ ch', chunks w' !! 1%positive = Some ch' ∧
    set_obj_max (set_objects ch' (objects ex_chunk)) (obj_max ex_chunk) = ex_chunk ∧
    obj_max ex_chunk ≤ obj_max ch' ∧
    (length (objects ex_chunk) ≤ length (objects ch'))%nat ∧
    (∀ (j : nat) o', objects ex_chunk !! j = Some (Some o') →
       objects ch' !! j = Some (Some o')) ∧
    (∀ (j : nat) s, objects ch' !! j = Some s →
       s = None ∨ s = Some 16%positive ∨ objects ex_chunk !! j = Some s) ∧
    (∀ p, p ≠ 1%positive →
       (cave ex_play = Some 1%positive → player_cave ex_play ≠ Some p) →
       chunks w' !! p = chunks ex_play !! p) ∧
    (∀ o', o' ≠ 16%positive → objs w' !! o' = objs ex_play !! o') ∧
    cave w' = cave ex_play ∧ player_cave w' = player_cave ex_play.
Proof.
  eexists. split; [reflexivity|].
  apply (@list_object_frame ex_layout ex_play 1%positive ex_chunk 16%positive);
    [apply ex_play_ok|by eexists|reflexivity|reflexivity].
Defined.

Lemma list_then_delist_witness :
  ∃ w1 w2 ch2,
    @list_object ex_layout ex_play 1%positive (Some 16%positive) = Ok w1 ∧
    delist_object w1 1%positive 16%positive = Ok w2 ∧
    chunks w2 !! 1%positive = Some ch2 ∧
    objects ch2 =
      objects ex_chunk ++ replicate (Z.to_nat (obj_max ch2 - obj_max ex_chunk)) None ∧
    (obj_max ch2 = obj_max ex_chunk ∨ obj_max ch2 = obj_max ex_chunk + 4) ∧
    objs w2 = <[16%positive := Object 0]> (objs ex_play).
Proof.
  apply (@list_then_delist ex_layout ex_play 1%positive ex_chunk 16%positive);
    [apply ex_play_ok|by eexists|reflexivity|].
  intros j Hj. by apply ex_play_full.
Defined.

Lemma delist_then_list_witness :
  ∃ w1 w2 ch2 i,
    delist_object ex_play 1%positive 11%positive = Ok w1 ∧
    @list_object ex_layout w1 1%positive (Some 16%positive) = Ok w2 ∧
    objs w2 !! 16%positive = Some (Object i) ∧ 1 ≤ i ≤ 1 ∧
    chunks w2 !! 1%positive = Some ch2 ∧
    objects ch2 !! Z.to_nat i = Some (Some 16%positive) ∧
    obj_max ch2 = obj_max ex_chunk ∧
    length (objects ch2) = length (objects ex_chunk).
Proof.
  apply (@delist_then_list ex_layout ex_play 1%positive ex_chunk 11%positive
           (Object 1) 16%positive);
    [apply ex_play_ok|reflexivity|reflexivity|reflexivity
    |apply ex_play_unknown_1|by eexists| |reflexivity].
  apply (bool_decide_unpack _). vm_compute. reflexivity.
Defined.

Lemma calls_keep_index_witness :
  ∃ w' ch',
    @run_calls ex_layout ex_stash 3%positive
      [CallList 11; CallDelist 10; CallList 13; CallList 10; CallList 11;
       CallDelist 12; CallDelist 12]%positive = Ok w' ∧
    chunks w' !! 3%positive = Some ch' ∧
    obj_max ex_vault ≤ obj_max ch' ∧
    (∀ (i : nat) o, objects ch' !! i = Some (Some o) ↔
       objs w' !! o = Some (Object (Z.of_nat i)) ∧ i ≠ 0%nat) ∧
    (∀ (i j : nat) o, objects ch' !! i = Some (Some o) →
       objects ch' !! j = Some (Some o) → i = j).
Proof.
  apply (@calls_keep_index ex_layout ex_stash 3%positive ex_vault);
    [apply ex_stash_ok| |reflexivity].
  repeat constructor; by eexists.
Defined.

Lemma calls_on_new_chunk_witness :
  ∃ w' ch',
    @run_calls ex_layout (@cave_new ex_layout ex_idle 10 10).2
      (@cave_new ex_layout ex_idle 10 10).1
      [CallList 10; CallList 11; CallDelist 10; CallList 12; CallList 10;
       CallDelist 13]%positive = Ok w' ∧
    chunks w' !! (@cave_new ex_layout ex_idle 10 10).1 = Some ch' ∧
    8 - 1 ≤ obj_max ch' ∧
    (∀ (i : nat) o, objects ch' !! i = Some (Some o) ↔
       objs w' !! o = Some (Object (Z.of_nat i)) ∧ i ≠ 0%nat) ∧
    (∀ (i j : nat) o, objects ch' !! i = Some (Some o) →
       objects ch' !! j = Some (Some o) → i = j).
Proof.
  apply (@calls_on_new_chunk ex_layout ex_idle 10 10);
    [apply ex_idle_unlisted|discriminate| |reflexivity|reflexivity].
  repeat constructor; by eexists.
Defined.

Lemma operations_keep_lists_ok_witness :
  (∃ w' ch', @list_object ex_layout ex_play 1%positive (Some 16%positive) = Ok w' ∧
     lists_ok w' 1%positive ch' ∧ obj_max ex_chunk ≤ obj_max ch') ∧
  (∃ w' ch', @list_object ex_layout ex_play 1%positive None = Ok w' ∧
     lists_ok w' 1%positive ch' ∧ obj_max ex_chunk ≤ obj_max ch') ∧
  (∀ w', delist_object ex_play 1%positive 11%positive = Ok w' →
     ∃ ch', lists_ok w' 1%positive ch' ∧ obj_max ch' = obj_max ex_chunk).
Proof.
  destruct (@operations_keep_lists_ok ex_layout ex_play 1%positive ex_chunk)
    as [Hlist Hdelist]; [apply ex_play_ok|reflexivity|].
  split; [|split].
  - apply Hlist. intros o [= <-]. by eexists.
  - apply Hlist. intros o [=].
  - apply Hdelist.
Defined.

Lemma list_object_keeps_integrity_witness :
  ∃ w', @list_object ex_layout ex_play 1%positive (Some 16%positive) = Ok w' ∧
        @object_lists_check_integrity ex_piles w' ex_places 1%positive 2%positive
        = Ok ().
Proof.
  apply (@list_object_keeps_integrity ex_layout ex_piles ex_play ex_places
           1%positive 2%positive ex_chunk ex_known 16%positive
           (ObjectPlace 0 0 None));
    [apply ex_play_ok|reflexivity|reflexivity|reflexivity|apply ex_play_checked
    |by eexists|reflexivity|reflexivity| | |reflexivity];
    apply (bool_decide_unpack _); vm_compute; reflexivity.
Defined.

Lemma delist_object_keeps_integrity_witness :
  ∃ w', delist_object ex_play 1%positive 11%positive = Ok w' ∧
        @object_lists_check_integrity ex_piles w' ex_places 1%positive 2%positive
        = Ok ().
Proof.
  eexists. split; [reflexivity|].
  apply (@delist_object_keeps_integrity ex_piles ex_play ex_places
           1%positive 2%positive ex_chunk ex_known 11%positive);
    [apply ex_play_ok|reflexivity|reflexivity|reflexivity|apply ex_play_checked
    |reflexivity].
Defined.
